(** * TodoApp: the todo list component and its localStorage persistence

    A shallow embedding of [src/components/TodoApp.tsx]: the [Todo]
    record, the three pieces of component state ([todos], [input],
    [filter]), the two effects (load on mount, save on every change of
    [todos]), the event handlers and the [filteredTodos] projection.

    The platform functions the component calls ([String.prototype.trim],
    [JSON.stringify], [JSON.parse], [Date.now], [localStorage]) are
    embedded from ECMA-262 as far as the component uses them. *)

From Stdlib Require Import List NArith ZArith QArith Lia Bool String Ascii.
From Stdlib Require Decimal DecimalN DecimalZ DecimalFacts DecimalPos.
Import ListNotations.

(** ** ECMAScript strings *)

Module JS.

Local Open Scope N_scope.

(** A String value is a finite sequence of 16-bit code units. *)
Definition code_unit := N.
Definition jsstring := list code_unit.

(** String literals of the source, written in ASCII. *)
Definition str (s : string) : jsstring :=
  map N_of_ascii (list_ascii_of_string s).

(** [a === b] on two Strings. *)
Fixpoint String_eqb (a b : jsstring) : bool :=
  match a, b with
  | [], [] => true
  | x :: a', y :: b' => (x =? y) && String_eqb a' b'
  | _, _ => false
  end.

(** WhiteSpace (TAB, VT, FF, ZWNBSP and the space separators Zs). *)
Definition isWhiteSpace (c : code_unit) : bool :=
  (c =? 0x0009) || (c =? 0x000B) || (c =? 0x000C) || (c =? 0xFEFF) ||
  (c =? 0x0020) || (c =? 0x00A0) || (c =? 0x1680) ||
  ((0x2000 <=? c) && (c <=? 0x200A)) ||
  (c =? 0x202F) || (c =? 0x205F) || (c =? 0x3000).

(** LineTerminator (LF, CR, LS, PS). *)
Definition isLineTerminator (c : code_unit) : bool :=
  (c =? 0x000A) || (c =? 0x000D) || (c =? 0x2028) || (c =? 0x2029).

Definition isStrWhiteSpaceChar (c : code_unit) : bool :=
  isWhiteSpace c || isLineTerminator c.

(** TrimString(S, start), TrimString(S, end) and [String.prototype.trim]. *)
Fixpoint trimStart (s : jsstring) : jsstring :=
  match s with
  | [] => []
  | c :: r => if isStrWhiteSpaceChar c then trimStart r else s
  end.

Definition trimEnd (s : jsstring) : jsstring := rev (trimStart (rev s)).

Definition trim (s : jsstring) : jsstring := trimEnd (trimStart s).

(** Surrogate code units. *)
Definition isLeadingSurrogate (c : code_unit) : bool :=
  (0xD800 <=? c) && (c <=? 0xDBFF).

Definition isTrailingSurrogate (c : code_unit) : bool :=
  (0xDC00 <=? c) && (c <=? 0xDFFF).

(** The integral Numbers every arithmetic operation represents exactly:
    [Number.isSafeInteger].  A time value, as [Date.now()] returns it,
    is an integer of magnitude at most 8.64e15 and so a safe integer. *)
Definition isSafeInteger (n : Z) : bool :=
  ((- (2 ^ 53 - 1) <=? n) && (n <=? 2 ^ 53 - 1))%Z.

End JS.

(** ** JSON text *)

Module JSON.

Import JS.
Local Open Scope N_scope.

Definition QUOTE : code_unit := 0x22.
Definition BACKSLASH : code_unit := 0x5C.
Definition SOLIDUS : code_unit := 0x2F.
Definition MINUS : code_unit := 0x2D.
Definition PLUS : code_unit := 0x2B.
Definition DOT : code_unit := 0x2E.
Definition COMMA : code_unit := 0x2C.
Definition COLON : code_unit := 0x3A.
Definition LBRACKET : code_unit := 0x5B.
Definition RBRACKET : code_unit := 0x5D.
Definition LBRACE : code_unit := 0x7B.
Definition RBRACE : code_unit := 0x7D.

(** *** Serialization ([JSON.stringify] with no replacer and no gap) *)

(** One lower-case hexadecimal digit. *)
Definition hex_digit (n : N) : code_unit :=
  if n <? 10 then 0x30 + n else 0x57 + n.

(** UnicodeEscape(C): [\u] and four hexadecimal digits. *)
Definition UnicodeEscape (c : code_unit) : jsstring :=
  [BACKSLASH; 0x75;
   hex_digit (c / 4096 mod 16); hex_digit (c / 256 mod 16);
   hex_digit (c / 16 mod 16); hex_digit (c mod 16)].

(** The text of one code unit that is not half of a surrogate pair:
    the two-character escapes of the JSON escape table, [\uXXXX] for the
    other control characters, the code unit itself otherwise. *)
Definition quote_unit (c : code_unit) : jsstring :=
  if c =? 0x08 then [BACKSLASH; 0x62]
  else if c =? 0x09 then [BACKSLASH; 0x74]
  else if c =? 0x0A then [BACKSLASH; 0x6E]
  else if c =? 0x0C then [BACKSLASH; 0x66]
  else if c =? 0x0D then [BACKSLASH; 0x72]
  else if c =? QUOTE then [BACKSLASH; QUOTE]
  else if c =? BACKSLASH then [BACKSLASH; BACKSLASH]
  else if c <? 0x20 then UnicodeEscape c
  else [c].

(** The characters QuoteJSONString puts between the quotes.  A leading
    surrogate followed by a trailing one is a code point above U+FFFF
    and is copied; a surrogate on its own is escaped. *)
Fixpoint quote_chars (s : jsstring) : jsstring :=
  match s with
  | [] => []
  | c :: r =>
      if isLeadingSurrogate c then
        match r with
        | d :: r' =>
            if isTrailingSurrogate d then c :: d :: quote_chars r'
            else UnicodeEscape c ++ quote_chars r
        | [] => UnicodeEscape c
        end
      else if isTrailingSurrogate c then UnicodeEscape c ++ quote_chars r
      else quote_unit c ++ quote_chars r
  end.

Definition QuoteJSONString (s : jsstring) : jsstring :=
  QUOTE :: quote_chars s ++ [QUOTE].

(** Decimal digits as code units. *)
Fixpoint chars_of_uint (d : Decimal.uint) : jsstring :=
  match d with
  | Decimal.Nil => []
  | Decimal.D0 d' => 0x30 :: chars_of_uint d'
  | Decimal.D1 d' => 0x31 :: chars_of_uint d'
  | Decimal.D2 d' => 0x32 :: chars_of_uint d'
  | Decimal.D3 d' => 0x33 :: chars_of_uint d'
  | Decimal.D4 d' => 0x34 :: chars_of_uint d'
  | Decimal.D5 d' => 0x35 :: chars_of_uint d'
  | Decimal.D6 d' => 0x36 :: chars_of_uint d'
  | Decimal.D7 d' => 0x37 :: chars_of_uint d'
  | Decimal.D8 d' => 0x38 :: chars_of_uint d'
  | Decimal.D9 d' => 0x39 :: chars_of_uint d'
  end.

(** Number::toString(x, 10) for an integral Number of magnitude below
    10^21, safe integers among them: its decimal digits, after a minus
    sign when it is negative. *)
Definition Number_toString (n : Z) : jsstring :=
  match Z.to_int n with
  | Decimal.Pos d => chars_of_uint d
  | Decimal.Neg d => MINUS :: chars_of_uint d
  end.

Definition Boolean_toString (b : bool) : jsstring :=
  if b then str "true" else str "false".

(** Elements separated by commas. *)
Fixpoint join_comma (parts : list jsstring) : jsstring :=
  match parts with
  | [] => []
  | [p] => p
  | p :: rest => p ++ COMMA :: join_comma rest
  end.

(** SerializeJSONObject, given each property key with the text of its
    value, in property order. *)
Definition SerializeJSONObject (props : list (jsstring * jsstring)) : jsstring :=
  LBRACE ::
  join_comma (map (fun kv => QuoteJSONString (fst kv) ++ COLON :: snd kv) props)
  ++ [RBRACE].

(** SerializeJSONArray, given the text of each element. *)
Definition SerializeJSONArray (elems : list jsstring) : jsstring :=
  LBRACKET :: join_comma elems ++ [RBRACKET].

(** *** Values *)

(** The ECMAScript values a JSON text denotes.  A Number is kept as the
    exact mathematical value of its literal; the engine rounds it to the
    nearest double, and the two agree on the safe integers.  An object
    lists its properties in creation order. *)
#[warnings="-register-all"]
Inductive value : Type :=
| VNull
| VBool (b : bool)
| VNumber (q : Q)
| VString (s : jsstring)
| VArray (elements : list value)
| VObject (properties : list (jsstring * value)).

(** *** Parsing ([JSON.parse] with no reviver) *)

(** What a parsing function returns: a result, the SyntaxError that
    [JSON.parse] throws, or the exhaustion of the recursion budget of
    this embedding (shown below never to happen in [parse]). *)
Inductive result (A : Type) : Type :=
| Ok (a : A)
| SyntaxError
| OutOfFuel.

Arguments Ok {A} a.
Arguments SyntaxError {A}.
Arguments OutOfFuel {A}.

(** JSON white space: TAB, LF, CR, SP. *)
Definition isJSONWhiteSpace (c : code_unit) : bool :=
  (c =? 0x09) || (c =? 0x0A) || (c =? 0x0D) || (c =? 0x20).

Fixpoint skip_ws (s : jsstring) : jsstring :=
  match s with
  | [] => []
  | c :: r => if isJSONWhiteSpace c then skip_ws r else s
  end.

(** [strip_prefix p s]: what follows [p] at the start of [s]. *)
Fixpoint strip_prefix (p s : jsstring) : option jsstring :=
  match p, s with
  | [], _ => Some s
  | a :: p', b :: s' => if a =? b then strip_prefix p' s' else None
  | _ :: _, [] => None
  end.

(** The value of a hexadecimal digit, in either case. *)
Definition hex_value (c : code_unit) : option N :=
  if (0x30 <=? c) && (c <=? 0x39) then Some (c - 0x30)
  else if (0x41 <=? c) && (c <=? 0x46) then Some (c - 0x37)
  else if (0x61 <=? c) && (c <=? 0x66) then Some (c - 0x57)
  else None.

(** The character a single-character escape stands for. *)
Definition unescape (c : code_unit) : option code_unit :=
  if c =? QUOTE then Some QUOTE
  else if c =? BACKSLASH then Some BACKSLASH
  else if c =? SOLIDUS then Some SOLIDUS
  else if c =? 0x62 then Some 0x08
  else if c =? 0x66 then Some 0x0C
  else if c =? 0x6E then Some 0x0A
  else if c =? 0x72 then Some 0x0D
  else if c =? 0x74 then Some 0x09
  else None.

Definition cons_chars (c : code_unit) (p : option (jsstring * jsstring))
  : option (jsstring * jsstring) :=
  match p with
  | Some (s, r) => Some (c :: s, r)
  | None => None
  end.

(** A JSON string after its opening quote: the String it denotes and
    what follows the closing quote; [None] is a SyntaxError. *)
Fixpoint parse_chars (s : jsstring) : option (jsstring * jsstring) :=
  match s with
  | [] => None
  | c :: r =>
      if c =? QUOTE then Some ([], r)
      else if c =? BACKSLASH then
        match r with
        | [] => None
        | e :: r1 =>
            if e =? 0x75 then
              match r1 with
              | h1 :: h2 :: h3 :: h4 :: r2 =>
                  match hex_value h1, hex_value h2, hex_value h3, hex_value h4 with
                  | Some a, Some b, Some c', Some d =>
                      cons_chars (a * 4096 + b * 256 + c' * 16 + d) (parse_chars r2)
                  | _, _, _, _ => None
                  end
              | _ => None
              end
            else
              match unescape e with
              | Some u => cons_chars u (parse_chars r1)
              | None => None
              end
        end
      else if c <? 0x20 then None
      else cons_chars c (parse_chars r)
  end.

Definition isDigit (c : code_unit) : bool := (0x30 <=? c) && (c <=? 0x39).

(** Prepend the decimal digit whose character is [c]. *)
Definition digit_cons (c : code_unit) (d : Decimal.uint) : Decimal.uint :=
  if c =? 0x30 then Decimal.D0 d
  else if c =? 0x31 then Decimal.D1 d
  else if c =? 0x32 then Decimal.D2 d
  else if c =? 0x33 then Decimal.D3 d
  else if c =? 0x34 then Decimal.D4 d
  else if c =? 0x35 then Decimal.D5 d
  else if c =? 0x36 then Decimal.D6 d
  else if c =? 0x37 then Decimal.D7 d
  else if c =? 0x38 then Decimal.D8 d
  else Decimal.D9 d.

(** The longest run of decimal digits at the start of [s]. *)
Fixpoint scan_digits (s : jsstring) : Decimal.uint * jsstring :=
  match s with
  | [] => (Decimal.Nil, [])
  | c :: r =>
      if isDigit c then
        let (d, r') := scan_digits r in (digit_cons c d, r')
      else (Decimal.Nil, s)
  end.

(** The integer part of a JSON number: a single [0], or a non-zero
    digit and the digits after it. *)
Definition parse_int (s : jsstring) : option (Decimal.uint * jsstring) :=
  match s with
  | [] => None
  | c :: r =>
      if c =? 0x30 then Some (Decimal.D0 Decimal.Nil, r)
      else if isDigit c then Some (scan_digits s)
      else None
  end.

(** The optional fraction: a dot and at least one digit. *)
Definition parse_frac (s : jsstring) : option (Decimal.uint * jsstring) :=
  match s with
  | c :: r =>
      if c =? DOT then
        match scan_digits r with
        | (Decimal.Nil, _) => None
        | (f, r') => Some (f, r')
        end
      else Some (Decimal.Nil, s)
  | [] => Some (Decimal.Nil, s)
  end.

(** The optional exponent: [e] or [E], an optional sign and at least one
    digit. *)
Definition parse_exp (s : jsstring) : option (Z * jsstring) :=
  match s with
  | c :: r =>
      if (c =? 0x65) || (c =? 0x45) then
        let (neg, r1) :=
          match r with
          | g :: r0 =>
              if g =? PLUS then (false, r0)
              else if g =? MINUS then (true, r0)
              else (false, r)
          | [] => (false, r)
          end in
        match scan_digits r1 with
        | (Decimal.Nil, _) => None
        | (x, r2) =>
            let n := Z.of_N (N.of_uint x) in
            Some (if neg then (- n)%Z else n, r2)
        end
      else Some (0%Z, s)
  | [] => Some (0%Z, s)
  end.

(** The mathematical value of a number literal. *)
Definition number_value (neg : bool) (int frac : Decimal.uint) (exp : Z) : Q :=
  let m := Z.of_N (N.of_uint (Decimal.app int frac)) in
  let e := (exp - Z.of_nat (Decimal.nb_digits frac))%Z in
  Qred (((if neg then (- m)%Z else m) # 1) * (10 # 1) ^ e).

Definition parse_number (s : jsstring) : option (Q * jsstring) :=
  let (neg, s1) :=
    match s with
    | c :: r => if c =? MINUS then (true, r) else (false, s)
    | [] => (false, s)
    end in
  match parse_int s1 with
  | None => None
  | Some (int, s2) =>
      match parse_frac s2 with
      | None => None
      | Some (frac, s3) =>
          match parse_exp s3 with
          | None => None
          | Some (exp, s4) => Some (number_value neg int frac exp, s4)
          end
      end
  end.

(** CreateDataProperty on the object under construction: a key that is
    already there keeps its place and takes the new value. *)
Fixpoint define_property (k : jsstring) (v : value)
    (props : list (jsstring * value)) : list (jsstring * value) :=
  match props with
  | [] => [(k, v)]
  | (k', v') :: rest =>
      if String_eqb k k' then (k', v) :: rest
      else (k', v') :: define_property k v rest
  end.

Definition make_object (members : list (jsstring * value)) : value :=
  VObject (fold_left (fun props kv => define_property (fst kv) (snd kv) props)
                     members []).

(** A JSON value, then the elements of an array after its first
    bracket, then the members of an object after its first brace.  Each
    call spends one unit of [fuel]. *)
Fixpoint parse_value (fuel : nat) (s : jsstring) : result (value * jsstring) :=
  match fuel with
  | O => OutOfFuel
  | S fuel' =>
      match skip_ws s with
      | [] => SyntaxError
      | c :: r =>
          if c =? LBRACKET then
            match skip_ws r with
            | c' :: r' =>
                if c' =? RBRACKET then Ok (VArray [], r')
                else
                  match parse_elements fuel' r with
                  | Ok (vs, r1) => Ok (VArray vs, r1)
                  | SyntaxError => SyntaxError
                  | OutOfFuel => OutOfFuel
                  end
            | [] => SyntaxError
            end
          else if c =? LBRACE then
            match skip_ws r with
            | c' :: r' =>
                if c' =? RBRACE then Ok (VObject [], r')
                else
                  match parse_members fuel' r with
                  | Ok (ms, r1) => Ok (make_object ms, r1)
                  | SyntaxError => SyntaxError
                  | OutOfFuel => OutOfFuel
                  end
            | [] => SyntaxError
            end
          else if c =? QUOTE then
            match parse_chars r with
            | Some (str, r1) => Ok (VString str, r1)
            | None => SyntaxError
            end
          else if (c =? MINUS) || isDigit c then
            match parse_number (c :: r) with
            | Some (q, r1) => Ok (VNumber q, r1)
            | None => SyntaxError
            end
          else
            match strip_prefix (str "true") (c :: r) with
            | Some r1 => Ok (VBool true, r1)
            | None =>
                match strip_prefix (str "false") (c :: r) with
                | Some r1 => Ok (VBool false, r1)
                | None =>
                    match strip_prefix (str "null") (c :: r) with
                    | Some r1 => Ok (VNull, r1)
                    | None => SyntaxError
                    end
                end
            end
      end
  end

with parse_elements (fuel : nat) (s : jsstring) : result (list value * jsstring) :=
  match fuel with
  | O => OutOfFuel
  | S fuel' =>
      match parse_value fuel' s with
      | Ok (v, r) =>
          match skip_ws r with
          | c :: r' =>
              if c =? COMMA then
                match parse_elements fuel' r' with
                | Ok (vs, r1) => Ok (v :: vs, r1)
                | SyntaxError => SyntaxError
                | OutOfFuel => OutOfFuel
                end
              else if c =? RBRACKET then Ok ([v], r')
              else SyntaxError
          | [] => SyntaxError
          end
      | SyntaxError => SyntaxError
      | OutOfFuel => OutOfFuel
      end
  end

with parse_members (fuel : nat) (s : jsstring)
  : result (list (jsstring * value) * jsstring) :=
  match fuel with
  | O => OutOfFuel
  | S fuel' =>
      match skip_ws s with
      | c :: r =>
          if c =? QUOTE then
            match parse_chars r with
            | Some (k, r1) =>
                match skip_ws r1 with
                | c1 :: r2 =>
                    if c1 =? COLON then
                      match parse_value fuel' r2 with
                      | Ok (v, r3) =>
                          match skip_ws r3 with
                          | c3 :: r4 =>
                              if c3 =? COMMA then
                                match parse_members fuel' r4 with
                                | Ok (ms, r5) => Ok ((k, v) :: ms, r5)
                                | SyntaxError => SyntaxError
                                | OutOfFuel => OutOfFuel
                                end
                              else if c3 =? RBRACE then Ok ([(k, v)], r4)
                              else SyntaxError
                          | [] => SyntaxError
                          end
                      | SyntaxError => SyntaxError
                      | OutOfFuel => OutOfFuel
                      end
                    else SyntaxError
                | [] => SyntaxError
                end
            | None => SyntaxError
            end
          else SyntaxError
      | [] => SyntaxError
      end
  end.

(** A whole JSON text: one value, with white space around it and
    nothing else. *)
Definition parse_text (fuel : nat) (text : jsstring) : result value :=
  match parse_value fuel text with
  | Ok (v, r) =>
      match skip_ws r with
      | [] => Ok v
      | _ :: _ => SyntaxError
      end
  | SyntaxError => SyntaxError
  | OutOfFuel => OutOfFuel
  end.

(** The budget [parse] gives [parse_value]; every call on a nested value
    follows the consumption of at least one character. *)
Definition parse_fuel (text : jsstring) : nat := 2 * List.length text + 1.

(** [JSON.parse(text)]: the value, or [None] when it throws a
    SyntaxError. *)
Definition parse (text : jsstring) : option value :=
  match parse_text (parse_fuel text) text with
  | Ok v => Some v
  | SyntaxError => None
  | OutOfFuel => None
  end.

(** *** Vocabulary of the proofs about parsing *)

(** [s] is empty or starts with a character that [P] rejects. *)
Definition starts_without (P : code_unit -> bool) (s : jsstring) : Prop :=
  match s with
  | [] => True
  | c :: _ => P c = false
  end.

(** A character that ends an integer literal: not a digit, and opening
    neither a fraction nor an exponent. *)
Definition number_end (c : code_unit) : Prop :=
  isDigit c = false /\ c <> DOT /\ c <> 0x65 /\ c <> 0x45.

(** A parsing function makes progress on [s]: it does not run out of
    fuel, and a result leaves less than [s] to read. *)
Definition progress {A : Type} (s : jsstring) (res : result (A * jsstring)) : Prop :=
  match res with
  | Ok (_, r) => (List.length r < List.length s)%nat
  | SyntaxError => True
  | OutOfFuel => False
  end.

End JSON.

(** ** The component *)

Module TodoApp.

Import JS.

(** [interface Todo].  An [id] is the integral Number [Date.now()]
    returned when the todo was added. *)
Record Todo : Type := {
  id : Z;
  text : jsstring;
  completed : bool
}.

(** The component between two events: its three state variables and the
    part of the environment it touches, namely the item stored under
    the key ['todos'] and the values [setItem] has written under that
    key so far, oldest first. *)
Record App : Type := {
  todos : list Todo;
  input : jsstring;
  filter : jsstring;
  localStorage : option jsstring;
  setItem_log : list jsstring
}.

(** What running an effect can end in: normal completion, an exception
    nobody catches, or a [todos] that is not a [Todo[]] at run time,
    which the annotation [useState<Todo[]>] rules out without checking
    and which this embedding does not follow further. *)
Inductive outcome (A : Type) : Type :=
| Returns (a : A)
| Throws
| NotTodos.

Arguments Returns {A} a.
Arguments Throws {A}.
Arguments NotTodos {A}.

(** The run-time value of a [Todo]: [{ id, text, completed }], the keys
    in the order the object literal of [addTodo] creates them, which
    the spread in [toggleComplete] and [JSON.parse] both keep. *)
Definition value_of_Todo (todo : Todo) : JSON.value :=
  JSON.VObject [(str "id", JSON.VNumber (inject_Z (id todo)));
                (str "text", JSON.VString (text todo));
                (str "completed", JSON.VBool (completed todo))].

Definition value_of_todos (l : list Todo) : JSON.value :=
  JSON.VArray (map value_of_Todo l).

(** Reading a value back as a [Todo]: the values [value_of_Todo] gives
    on a safe integer [id].  [JSON.parse] can return other shapes
    (another key order, further keys, a fractional [id]); the component
    does not check, and this embedding leaves them out ([NotTodos]). *)
Definition as_Todo (v : JSON.value) : option Todo :=
  match v with
  | JSON.VObject [(k1, JSON.VNumber q); (k2, JSON.VString s); (k3, JSON.VBool b)] =>
      if String_eqb k1 (str "id") && String_eqb k2 (str "text")
         && String_eqb k3 (str "completed")
         && Pos.eqb (Qden q) 1 && isSafeInteger (Qnum q)
      then Some {| id := Qnum q; text := s; completed := b |}
      else None
  | _ => None
  end.

Fixpoint as_Todo_list (vs : list JSON.value) : option (list Todo) :=
  match vs with
  | [] => Some []
  | v :: vs' =>
      match as_Todo v, as_Todo_list vs' with
      | Some todo, Some l => Some (todo :: l)
      | _, _ => None
      end
  end.

Definition as_todos (v : JSON.value) : option (list Todo) :=
  match v with
  | JSON.VArray vs => as_Todo_list vs
  | _ => None
  end.

(** [JSON.stringify(todos)] at the type [Todo[]]. *)
Definition stringify_Todo (todo : Todo) : jsstring :=
  JSON.SerializeJSONObject
    [(str "id", JSON.Number_toString (id todo));
     (str "text", JSON.QuoteJSONString (text todo));
     (str "completed", JSON.Boolean_toString (completed todo))].

Definition stringify (l : list Todo) : jsstring :=
  JSON.SerializeJSONArray (map stringify_Todo l).

(** The first render: [useState([])], [useState('')], [useState('all')],
    over whatever the storage holds. *)
Definition init (stored : option jsstring) : App :=
  {| todos := []; input := []; filter := str "all";
     localStorage := stored; setItem_log := [] |}.

(** The second effect,
    [localStorage.setItem('todos', JSON.stringify(todos))]. *)
Definition save_effect (a : App) : App :=
  {| todos := todos a; input := input a; filter := filter a;
     localStorage := Some (stringify (todos a));
     setItem_log := setItem_log a ++ [stringify (todos a)] |}.

(** [setTodos(l)]: every caller passes a new array, so the component
    renders again with [todos = l] and the second effect, which depends
    on [todos], runs. *)
Definition setTodos (l : list Todo) (a : App) : App :=
  save_effect
    {| todos := l; input := input a; filter := filter a;
       localStorage := localStorage a; setItem_log := setItem_log a |}.

Definition setInput (s : jsstring) (a : App) : App :=
  {| todos := todos a; input := s; filter := filter a;
     localStorage := localStorage a; setItem_log := setItem_log a |}.

Definition setFilter (f : jsstring) (a : App) : App :=
  {| todos := todos a; input := input a; filter := f;
     localStorage := localStorage a; setItem_log := setItem_log a |}.

(** The first effect, given what [localStorage.getItem('todos')]
    returned: [Returns None] when [setTodos] is not called (no item, or
    the empty string, which is falsy), [Returns (Some v)] when
    [setTodos(v)] is called, [Throws] when [JSON.parse] throws. *)
Definition load_effect (storedTodos : option jsstring) : outcome (option JSON.value) :=
  match storedTodos with
  | None => Returns None
  | Some [] => Returns None
  | Some (c :: s) =>
      match JSON.parse (c :: s) with
      | Some v => Returns (Some v)
      | None => Throws
      end
  end.

(** Mounting the component: the first render, then both effects in
    source order (the first reads the storage before the second writes
    the empty list to it), then the render and the second effect that
    [setTodos] causes. *)
Definition mount (stored : option jsstring) : outcome App :=
  match load_effect (localStorage (init stored)) with
  | Throws => Throws
  | NotTodos => NotTodos
  | Returns update =>
      let a := save_effect (init stored) in
      match update with
      | None => Returns a
      | Some v =>
          match as_todos v with
          | Some l => Returns (setTodos l a)
          | None => NotTodos
          end
      end
  end.

(** [addTodo], with [now] the value [Date.now()] returns. *)
Definition addTodo (now : Z) (a : App) : App :=
  if String_eqb (trim (input a)) [] then a
  else
    let newTodo := {| id := now; text := input a; completed := false |} in
    setInput [] (setTodos (todos a ++ [newTodo]) a).

Definition toggleComplete (i : Z) (a : App) : App :=
  setTodos
    (map (fun todo =>
            if (id todo =? i)%Z
            then {| id := id todo; text := text todo;
                    completed := negb (completed todo) |}
            else todo)
         (todos a))
    a.

Definition deleteTodo (i : Z) (a : App) : App :=
  setTodos (List.filter (fun todo => negb (id todo =? i)%Z) (todos a)) a.

Definition clearCompleted (a : App) : App :=
  setTodos (List.filter (fun todo => negb (completed todo)) (todos a)) a.

Definition clearAll (a : App) : App := setTodos [] a.

(** [filteredTodos], computed at every render. *)
Definition filteredTodos (a : App) : list Todo :=
  List.filter
    (fun todo =>
       if String_eqb (filter a) (str "pending") then negb (completed todo)
       else if String_eqb (filter a) (str "completed") then completed todo
       else true)
    (todos a).

(** The operations under the names the specification gives them:
    [add(text)] is typing [text] into the input and submitting the form,
    [visibleTasks(f)] is what is shown once the filter is [f]. *)
Definition add (s : jsstring) (now : Z) (a : App) : App :=
  addTodo now (setInput s a).

Definition visibleTasks (f : jsstring) (a : App) : list Todo :=
  filteredTodos (setFilter f a).

(** The events of the page after mounting. *)
Inductive event : Type :=
| Change (s : jsstring)
| Submit (now : Z)
| ClickComplete (i : Z)
| ClickDelete (i : Z)
| ClickClearCompleted
| ClickClearAll
| ClickFilter (f : jsstring).

Definition handle (a : App) (e : event) : App :=
  match e with
  | Change s => setInput s a
  | Submit now => addTodo now a
  | ClickComplete i => toggleComplete i a
  | ClickDelete i => deleteTodo i a
  | ClickClearCompleted => clearCompleted a
  | ClickClearAll => clearAll a
  | ClickFilter f => setFilter f a
  end.

Definition run (a : App) (es : list event) : App := fold_left handle es a.

(** The states the page can be in: mounted over some storage content,
    then any events. *)
Definition reachable (a : App) : Prop :=
  exists stored a0 es, mount stored = Returns a0 /\ a = run a0 es.

(** [l1] is [l2] with some elements left out, the others in order. *)
Inductive Subsequence {A : Type} : list A -> list A -> Prop :=
| Subsequence_nil : Subsequence [] []
| Subsequence_keep x l1 l2 : Subsequence l1 l2 -> Subsequence (x :: l1) (x :: l2)
| Subsequence_drop x l1 l2 : Subsequence l1 l2 -> Subsequence l1 (x :: l2).

Definition ids (l : list Todo) : list Z := map id l.

(** The callback of [toggleComplete]. *)
Definition toggled (i : Z) (todo : Todo) : Todo :=
  if (id todo =? i)%Z
  then {| id := id todo; text := text todo; completed := negb (completed todo) |}
  else todo.

(** *** Vocabulary of the statements *)

(** Every id is a safe integer, as the ids [Date.now()] gives are. *)
Definition safe_ids (l : list Todo) : Prop :=
  Forall (fun todo => isSafeInteger (id todo) = true) l.

(** The list stored under ['todos'], if one is stored, has distinct
    ids. *)
Definition stored_ids_distinct (stored : option jsstring) : Prop :=
  forall s v l,
    stored = Some s -> JSON.parse s = Some v -> as_todos v = Some l ->
    NoDup (ids l).

(** The clock reading of a submit that appends is not yet an id. *)
Definition fresh_clock (a : App) (e : event) : Prop :=
  match e with
  | Submit now => trim (input a) = [] \/ ~ In now (ids (todos a))
  | _ => True
  end.

Fixpoint fresh_clocks (a : App) (es : list event) : Prop :=
  match es with
  | [] => True
  | e :: es' => fresh_clock a e /\ fresh_clocks (handle a e) es'
  end.

(** *** What the component renders *)

(** One [li] of the list: its key, its class, the text of its span, the
    label of its first button, and the handler calls its two buttons
    make when clicked. *)
Record li : Type := {
  key : Z;
  className : jsstring;
  span : jsstring;
  complete_btn : jsstring;
  complete_onClick : event;
  delete_onClick : event
}.

Definition render_li (todo : Todo) : li :=
  {| key := id todo;
     className := if completed todo then str "completed" else [];
     span := text todo;
     complete_btn := if completed todo then str "Undo" else str "Complete";
     complete_onClick := ClickComplete (id todo);
     delete_onClick := ClickDelete (id todo) |}.

(** The children of [ul#todo-list]. *)
Definition todo_list (a : App) : list li := map render_li (filteredTodos a).

(** One button of [div.filters]. *)
Record filter_button : Type := {
  label : jsstring;
  button_className : jsstring;
  onClick : event
}.

Definition render_filter_button (a : App) (name : jsstring) (f : jsstring)
  : filter_button :=
  {| label := name;
     button_className := if String_eqb (filter a) f then str "active" else [];
     onClick := ClickFilter f |}.

Definition filters (a : App) : list filter_button :=
  [render_filter_button a (str "All") (str "all");
   render_filter_button a (str "Pending") (str "pending");
   render_filter_button a (str "Completed") (str "completed")].

(** The filter buttons shown as active. *)
Definition active_filters (a : App) : list filter_button :=
  List.filter (fun b => String_eqb (button_className b) (str "active"))
              (filters a).

(** The events the rendered page lets the user cause: typing,
    submitting, the two clear buttons, and the buttons of the items and
    filters that are on the page. *)
Definition offers (a : App) (e : event) : Prop :=
  match e with
  | Change _ | Submit _ | ClickClearCompleted | ClickClearAll => True
  | ClickComplete _ =>
      exists item, In item (todo_list a) /\ complete_onClick item = e
  | ClickDelete _ =>
      exists item, In item (todo_list a) /\ delete_onClick item = e
  | ClickFilter _ => exists b, In b (filters a) /\ onClick b = e
  end.

Fixpoint offered_run (a : App) (es : list event) : Prop :=
  match es with
  | [] => True
  | e :: es' => offers a e /\ offered_run (handle a e) es'
  end.


(** The three filters the page has a button for. *)
Definition known_filter (f : jsstring) : Prop :=
  In f [str "all"; str "pending"; str "completed"].

(** The id and the text of a todo. *)
Definition id_text (todo : Todo) : Z * jsstring := (id todo, text todo).

End TodoApp.

(** * Properties *)

Import JS TodoApp.
Import JSON.

(** ** The definitions on concrete inputs *)

Example trim_inner_space : trim (str "  a b  ") = str "a b".
Proof. reflexivity. Qed.

Example trim_only_white_space :
  trim [0x09; 0x20; 0xA0; 0x3000; 0x0A; 0xFEFF]%N = [].
Proof. reflexivity. Qed.

Example parse_array :
  JSON.parse (str "[1, 2.5e1 ,true,null, -0.5]") =
    Some (VArray [VNumber 1; VNumber 25; VBool true; VNull; VNumber (-1 # 2)]).
Proof. reflexivity. Qed.

Example parse_rejects :
  map JSON.parse
      [str "not valid json"; str ""; str "01"; str "[1,]"; str "-"; str "1.";
       str "truex"; str "[1 2]"; str "{1:2}"] =
    [None; None; None; None; None; None; None; None; None].
Proof. reflexivity. Qed.

(** A key given twice keeps its first place and its last value. *)
Example parse_duplicate_key :
  JSON.parse (LBRACE :: QuoteJSONString (str "a") ++ str ":1," ++
              QuoteJSONString (str "b") ++ str ":2," ++
              QuoteJSONString (str "a") ++ str ":[]}") =
    Some (VObject [(str "a", VArray []); (str "b", VNumber 2)]).
Proof. reflexivity. Qed.

Example stringify_one :
  stringify [{| id := 12; text := str "a\"; completed := false |}] =
    str "[{" ++ QUOTE :: str "id" ++ QUOTE :: str ":12," ++
    QUOTE :: str "text" ++ QUOTE :: str ":" ++
    QUOTE :: str "a\\" ++ QUOTE :: str "," ++
    QUOTE :: str "completed" ++ QUOTE :: str ":false}]".
Proof. reflexivity. Qed.

(** Mounting over an empty storage writes the empty list once. *)
Example mount_no_item :
  mount None =
    Returns {| todos := []; input := []; filter := str "all";
               localStorage := Some (str "[]"); setItem_log := [str "[]"] |}.
Proof. reflexivity. Qed.

(** A stored JSON text that is not a list of todos is taken as it is. *)
Example mount_not_a_list : mount (Some (str "[1]")) = NotTodos.
Proof. reflexivity. Qed.

(** The scenario of the specification: two todos added, the first one
    completed. *)
Example scenario_buy_milk_walk_dog :
  let a := toggleComplete 1700000000000
             (add (str "walk dog") 1700000000005
                (add (str "buy milk") 1700000000000 (save_effect (init None)))) in
  map text (visibleTasks (str "pending") a) = [str "walk dog"] /\
  map text (visibleTasks (str "completed") a) = [str "buy milk"].
Proof. split; reflexivity. Qed.

(** ** Strings and lists *)

Lemma String_eqb_eq (a b : jsstring) : String_eqb a b = true <-> a = b.
Proof.
  revert b; induction a as [|x a IH]; intros [|y b]; simpl; split;
    try congruence; try reflexivity.
  - intros H. apply andb_true_iff in H as [Hx Hs].
    apply N.eqb_eq in Hx. apply IH in Hs. congruence.
  - intros H. injection H as -> ->.
    rewrite N.eqb_refl. simpl. now apply IH.
Qed.

Lemma String_eqb_neq (a b : jsstring) : String_eqb a b = false <-> a <> b.
Proof.
  rewrite <- String_eqb_eq. now destruct (String_eqb a b).
Qed.

Lemma filter_Subsequence {A : Type} (f : A -> bool) (l : list A) :
  Subsequence (List.filter f l) l.
Proof.
  induction l as [|x l IH]; simpl.
  - constructor.
  - destruct (f x); now constructor.
Qed.

Lemma Subsequence_refl {A : Type} (l : list A) : Subsequence l l.
Proof. induction l; now constructor. Qed.

(** A filter keeps every subsequence made of elements it accepts. *)
Lemma Subsequence_filter_greatest {A : Type} (f : A -> bool) (s l : list A) :
  Subsequence s l -> (forall x, In x s -> f x = true) ->
  Subsequence s (List.filter f l).
Proof.
  induction 1 as [|x l1 l2 _ IH|x l1 l2 _ IH]; intros Hs; simpl.
  - constructor.
  - rewrite (Hs x (or_introl eq_refl)). constructor.
    apply IH. intros y Hy. apply Hs. now right.
  - destruct (f x); [constructor|]; now apply IH.
Qed.

Lemma filter_all_true {A : Type} (l : list A) :
  List.filter (fun _ => true) l = l.
Proof. induction l; simpl; congruence. Qed.

Lemma NoDup_ids_filter (f : Todo -> bool) (l : list Todo) :
  NoDup (ids l) -> NoDup (ids (List.filter f l)).
Proof.
  unfold ids. induction l as [|t l IH]; simpl; intros H.
  - constructor.
  - inversion H as [|? ? Hnin Hnd]; subst.
    destruct (f t); simpl; [constructor|]; auto.
    intros Hin. apply Hnin.
    apply in_map_iff in Hin as (u & Hu & Hin).
    apply filter_In in Hin as [Hin _].
    apply in_map_iff. now exists u.
Qed.

(** ** The handlers, as functions of the list *)

Lemma todos_toggleComplete (i : Z) (a : App) :
  todos (toggleComplete i a) = map (toggled i) (todos a).
Proof. reflexivity. Qed.

Lemma todos_deleteTodo (i : Z) (a : App) :
  todos (deleteTodo i a) = List.filter (fun todo => negb (id todo =? i)%Z) (todos a).
Proof. reflexivity. Qed.

Lemma todos_clearCompleted (a : App) :
  todos (clearCompleted a) = List.filter (fun todo => negb (completed todo)) (todos a).
Proof. reflexivity. Qed.

Lemma todos_clearAll (a : App) : todos (clearAll a) = [].
Proof. reflexivity. Qed.

Lemma id_toggled (i : Z) (t : Todo) : id (toggled i t) = id t.
Proof. unfold toggled. now destruct (id t =? i)%Z. Qed.

Lemma text_toggled (i : Z) (t : Todo) : text (toggled i t) = text t.
Proof. unfold toggled. now destruct (id t =? i)%Z. Qed.

Lemma toggled_other (i : Z) (t : Todo) : id t <> i -> toggled i t = t.
Proof.
  intros H. unfold toggled. now destruct (Z.eqb_spec (id t) i).
Qed.

Lemma toggled_same (i : Z) (t : Todo) :
  id t = i ->
  toggled i t = {| id := id t; text := text t; completed := negb (completed t) |}.
Proof.
  intros H. unfold toggled. now destruct (Z.eqb_spec (id t) i).
Qed.

Lemma toggled_involutive (i : Z) (t : Todo) : toggled i (toggled i t) = t.
Proof.
  unfold toggled. destruct (Z.eqb_spec (id t) i) as [E|E]; simpl.
  - destruct (Z.eqb_spec (id t) i); [|contradiction].
    rewrite negb_involutive. now destruct t.
  - now destruct (Z.eqb_spec (id t) i).
Qed.

Lemma ids_map_toggled (i : Z) (l : list Todo) : ids (map (toggled i) l) = ids l.
Proof.
  unfold ids. rewrite map_map. apply map_ext. intros t. apply id_toggled.
Qed.

Lemma map_toggled_absent (i : Z) (l : list Todo) :
  ~ In i (ids l) -> map (toggled i) l = l.
Proof.
  unfold ids. induction l as [|t l IH]; simpl; intros H; [reflexivity|].
  rewrite toggled_other by tauto. f_equal. apply IH. tauto.
Qed.

Lemma filter_id_absent (i : Z) (l : list Todo) :
  ~ In i (ids l) -> List.filter (fun todo => negb (id todo =? i)%Z) l = l.
Proof.
  unfold ids. induction l as [|t l IH]; simpl; intros H; [reflexivity|].
  destruct (Z.eqb_spec (id t) i); simpl; [tauto|].
  f_equal. apply IH. tauto.
Qed.

(** In a list with distinct ids, the position of an id is unique. *)
Lemma NoDup_ids_position (l : list Todo) (n m : nat) (t u : Todo) :
  NoDup (ids l) -> nth_error l n = Some t -> nth_error l m = Some u ->
  id t = id u -> n = m.
Proof.
  intros Hnd Hn Hm E.
  apply (proj1 (NoDup_nth_error (ids l)) Hnd).
  - apply nth_error_Some. unfold ids. rewrite nth_error_map, Hn. discriminate.
  - unfold ids. rewrite !nth_error_map, Hn, Hm. simpl. now rewrite E.
Qed.

(** ** JSON strings *)

Section Parsing.

Local Open Scope N_scope.

Lemma hex_value_hex_digit (x : N) : x < 16 -> JSON.hex_value (JSON.hex_digit x) = Some x.
Proof.
  intros H. unfold JSON.hex_value, JSON.hex_digit.
  destruct (N.ltb_spec x 10).
  - replace ((48 <=? 48 + x) && (48 + x <=? 57)) with true.
    + f_equal. lia.
    + symmetry. apply andb_true_iff. split; apply N.leb_le; lia.
  - replace ((48 <=? 87 + x) && (87 + x <=? 57)) with false.
    replace ((65 <=? 87 + x) && (87 + x <=? 70)) with false.
    replace ((97 <=? 87 + x) && (87 + x <=? 102)) with true.
    + f_equal. lia.
    + symmetry. apply andb_true_iff. split; apply N.leb_le; lia.
    + symmetry. apply andb_false_iff. right. apply N.leb_gt. lia.
    + symmetry. apply andb_false_iff. right. apply N.leb_gt. lia.
Qed.

Lemma hex_digits_value (c : N) : c < 65536 ->
  c / 4096 mod 16 * 4096 + c / 256 mod 16 * 256 + c / 16 mod 16 * 16 + c mod 16 = c.
Proof.
  intros H.
  zify. Z.to_euclidean_division_equations. lia.
Qed.

Lemma parse_chars_UnicodeEscape (c : code_unit) (r : jsstring) :
  c < 65536 ->
  JSON.parse_chars (JSON.UnicodeEscape c ++ r) = JSON.cons_chars c (JSON.parse_chars r).
Proof.
  intros H. unfold JSON.UnicodeEscape.
  cbn [app JSON.parse_chars].
  change (JSON.BACKSLASH =? JSON.QUOTE) with false.
  change (JSON.BACKSLASH =? JSON.BACKSLASH) with true.
  change (117 =? 117) with true. cbv iota.
  rewrite !hex_value_hex_digit by (apply N.mod_lt; discriminate).
  now rewrite hex_digits_value.
Qed.

Lemma parse_chars_raw (c : code_unit) (r : jsstring) :
  c <> JSON.QUOTE -> c <> JSON.BACKSLASH -> 32 <= c ->
  JSON.parse_chars (c :: r) = JSON.cons_chars c (JSON.parse_chars r).
Proof.
  intros Hq Hb Hc. cbn [JSON.parse_chars].
  apply N.eqb_neq in Hq, Hb. rewrite Hq, Hb.
  apply N.ltb_ge in Hc. now rewrite Hc.
Qed.

Lemma parse_chars_quote_unit (c : code_unit) (r : jsstring) :
  JSON.parse_chars (JSON.quote_unit c ++ r) = JSON.cons_chars c (JSON.parse_chars r).
Proof.
  unfold JSON.quote_unit.
  destruct (N.eqb_spec c 8) as [->|H8]; [reflexivity|].
  destruct (N.eqb_spec c 9) as [->|H9]; [reflexivity|].
  destruct (N.eqb_spec c 10) as [->|H10]; [reflexivity|].
  destruct (N.eqb_spec c 12) as [->|H12]; [reflexivity|].
  destruct (N.eqb_spec c 13) as [->|H13]; [reflexivity|].
  destruct (N.eqb_spec c JSON.QUOTE) as [->|Hq]; [reflexivity|].
  destruct (N.eqb_spec c JSON.BACKSLASH) as [->|Hb]; [reflexivity|].
  destruct (N.ltb_spec c 32) as [Hc|Hc].
  - apply parse_chars_UnicodeEscape. lia.
  - now apply parse_chars_raw.
Qed.

Lemma surrogate_raw (c : code_unit) :
  isLeadingSurrogate c = true \/ isTrailingSurrogate c = true ->
  c <> JSON.QUOTE /\ c <> JSON.BACKSLASH /\ 32 <= c /\ c < 65536.
Proof.
  unfold isLeadingSurrogate, isTrailingSurrogate, JSON.QUOTE, JSON.BACKSLASH.
  intros [H|H]; apply andb_true_iff in H as [H1 H2];
    apply N.leb_le in H1, H2; lia.
Qed.

Lemma parse_chars_quote_chars_le (n : nat) (s rest : jsstring) :
  (List.length s <= n)%nat ->
  JSON.parse_chars (JSON.quote_chars s ++ JSON.QUOTE :: rest) = Some (s, rest).
Proof.
  revert s. induction n as [|n IH]; intros s Hn.
  - destruct s; [reflexivity|simpl in Hn; lia].
  - destruct s as [|c r]; [reflexivity|]. simpl in Hn.
    cbn [JSON.quote_chars].
    destruct (isLeadingSurrogate c) eqn:Hl.
    + destruct (surrogate_raw c (or_introl Hl)) as (Hq & Hb & Hc & Hlt).
      destruct r as [|d r'].
      * rewrite parse_chars_UnicodeEscape by exact Hlt. reflexivity.
      * destruct (isTrailingSurrogate d) eqn:Ht.
        -- destruct (surrogate_raw d (or_intror Ht)) as (Hq' & Hb' & Hc' & _).
           cbn [app]. rewrite parse_chars_raw by assumption.
           rewrite parse_chars_raw by assumption.
           rewrite IH by (simpl in Hn; lia). reflexivity.
        -- rewrite <- app_assoc, parse_chars_UnicodeEscape by exact Hlt.
           rewrite IH by lia. reflexivity.
    + destruct (isTrailingSurrogate c) eqn:Ht.
      * destruct (surrogate_raw c (or_intror Ht)) as (_ & _ & _ & Hlt).
        rewrite <- app_assoc, parse_chars_UnicodeEscape by exact Hlt.
        rewrite IH by lia. reflexivity.
      * rewrite <- app_assoc, parse_chars_quote_unit.
        rewrite IH by lia. reflexivity.
Qed.

Lemma parse_chars_quote_chars (s rest : jsstring) :
  JSON.parse_chars (JSON.quote_chars s ++ JSON.QUOTE :: rest) = Some (s, rest).
Proof. now apply (parse_chars_quote_chars_le (List.length s)). Qed.

(** ** JSON numbers *)

Lemma scan_digits_chars_of_uint (d : Decimal.uint) (rest : jsstring) :
  starts_without JSON.isDigit rest ->
  JSON.scan_digits (JSON.chars_of_uint d ++ rest) = (d, rest).
Proof.
  intros Hrest.
  induction d; cbn [JSON.chars_of_uint app JSON.scan_digits];
    try (change (JSON.isDigit _) with true; cbv iota; rewrite IHd; reflexivity).
  destruct rest as [|c rest]; [reflexivity|].
  cbn [JSON.scan_digits]. simpl in Hrest. now rewrite Hrest.
Qed.

(** The digits of a positive number do not start with a zero. *)
Lemma to_uint_leading (p : positive) :
  exists c cs, JSON.chars_of_uint (Pos.to_uint p) = c :: cs /\
               JSON.isDigit c = true /\ c <> 48.
Proof.
  pose proof (DecimalPos.Unsigned.to_uint_nonzero p) as Hz.
  pose proof (DecimalPos.Unsigned.to_uint_nonnil p) as Hn.
  pose proof (DecimalN.Unsigned.to_of (Pos.to_uint p)) as Hnorm.
  change (N.of_uint (Pos.to_uint p)) with (Pos.of_uint (Pos.to_uint p)) in Hnorm.
  rewrite DecimalPos.Unsigned.of_to in Hnorm. simpl in Hnorm.
  destruct (Pos.to_uint p) as [|u|u|u|u|u|u|u|u|u|u] eqn:E;
    try (eexists _, _; cbn [JSON.chars_of_uint];
         split; [reflexivity|split; [reflexivity|discriminate]]).
  - contradiction.
  - exfalso. rewrite DecimalFacts.unorm_D0 in Hnorm.
    destruct u as [|v|v|v|v|v|v|v|v|v|v] eqn:Eu; [now apply Hz|..];
      match type of Hnorm with
      | ?d = Decimal.unorm ?w =>
          assert (Hne : w <> Decimal.Nil) by discriminate;
          pose proof (DecimalFacts.nb_digits_unorm w Hne) as Hle;
          rewrite <- Hnorm in Hle; simpl in Hle; lia
      end.
Qed.

Lemma number_value_integer (neg : bool) (m : N) :
  JSON.number_value neg (N.to_uint m) Decimal.Nil 0 =
    inject_Z (if neg then - Z.of_N m else Z.of_N m).
Proof.
  unfold JSON.number_value.
  rewrite DecimalFacts.app_nil_r, DecimalN.Unsigned.of_to.
  cbn [Decimal.nb_digits Z.of_nat Z.sub Z.opp Z.add Qpower].
  set (z := if neg then (- Z.of_N m)%Z else Z.of_N m).
  unfold Qmult, inject_Z. cbn [Qnum Qden]. rewrite Z.mul_1_r.
  change (1 * 1)%positive with 1%positive.
  unfold Qred. cbn [Qnum Qden].
  pose proof (Z.ggcd_correct_divisors z 1) as Hd.
  pose proof (Z.ggcd_gcd z 1) as Hg. rewrite Z.gcd_1_r in Hg.
  destruct (Z.ggcd z 1) as [g [aa bb]]. cbn [fst snd] in *. subst g.
  destruct Hd as [Ha Hb]. rewrite !Z.mul_1_l in *. now subst.
Qed.

Lemma parse_int_to_uint (m : N) (c : code_unit) (rest : jsstring) :
  JSON.isDigit c = false ->
  JSON.parse_int (JSON.chars_of_uint (N.to_uint m) ++ c :: rest) =
    Some (N.to_uint m, c :: rest).
Proof.
  intros Hc. destruct m as [|p]; [reflexivity|].
  cbn [N.to_uint].
  destruct (to_uint_leading p) as (d & ds & E & Hd & Hnz).
  pose proof (scan_digits_chars_of_uint (Pos.to_uint p) (c :: rest) Hc) as Hs.
  rewrite E in *. cbn [app] in *. unfold JSON.parse_int.
  apply N.eqb_neq in Hnz. now rewrite Hnz, Hd, Hs.
Qed.

Lemma parse_frac_exp_none (c : code_unit) (rest : jsstring) :
  number_end c ->
  JSON.parse_frac (c :: rest) = Some (Decimal.Nil, c :: rest) /\
  JSON.parse_exp (c :: rest) = Some (0%Z, c :: rest).
Proof.
  intros (_ & Hdot & He & HE). unfold JSON.parse_frac, JSON.parse_exp.
  apply N.eqb_neq in Hdot, He, HE. now rewrite Hdot, He, HE.
Qed.

Lemma Number_toString_head (n : Z) :
  exists c cs, JSON.Number_toString n = c :: cs /\
               (c = JSON.MINUS \/ JSON.isDigit c = true).
Proof.
  destruct n as [|p|p]; unfold JSON.Number_toString; cbn [Z.to_int].
  - eexists _, _. split; [reflexivity|now right].
  - destruct (to_uint_leading p) as (d & ds & E & Hd & _).
    exists d, ds. auto.
  - eexists _, _. split; [reflexivity|now left].
Qed.

Lemma N_to_uint_head (m : N) :
  exists c cs, JSON.chars_of_uint (N.to_uint m) = c :: cs /\ JSON.isDigit c = true.
Proof.
  destruct m as [|p].
  - eexists _, _. split; reflexivity.
  - destruct (to_uint_leading p) as (d & ds & E & Hd & _). exists d, ds. auto.
Qed.

Lemma isDigit_not_MINUS (c : code_unit) :
  JSON.isDigit c = true -> (c =? JSON.MINUS) = false.
Proof. intros H. apply N.eqb_neq. intros ->. discriminate. Qed.

Lemma parse_number_magnitude (neg : bool) (m : N) (c : code_unit) (rest : jsstring) :
  number_end c ->
  JSON.parse_number
    ((if neg then [JSON.MINUS] else []) ++
     JSON.chars_of_uint (N.to_uint m) ++ c :: rest) =
    Some (inject_Z (if neg then - Z.of_N m else Z.of_N m), c :: rest).
Proof.
  intros Hend. pose proof Hend as (Hc & _).
  destruct (parse_frac_exp_none c rest Hend) as [Hf He].
  pose proof (parse_int_to_uint m c rest Hc) as Hi.
  destruct (N_to_uint_head m) as (d & ds & E & Hd).
  unfold JSON.parse_number. destruct neg; cbn [app].
  - change (JSON.MINUS =? JSON.MINUS) with true. cbv iota.
    now rewrite Hi, Hf, He, number_value_integer.
  - rewrite E in *. cbn [app] in *.
    now rewrite (isDigit_not_MINUS d Hd), Hi, Hf, He, number_value_integer.
Qed.

Lemma parse_number_Number_toString (n : Z) (c : code_unit) (rest : jsstring) :
  number_end c ->
  JSON.parse_number (JSON.Number_toString n ++ c :: rest) =
    Some (inject_Z n, c :: rest).
Proof.
  intros Hend. unfold JSON.Number_toString.
  destruct n as [|p|p]; cbn [Z.to_int].
  - exact (parse_number_magnitude false 0 c rest Hend).
  - exact (parse_number_magnitude false (Npos p) c rest Hend).
  - exact (parse_number_magnitude true (Npos p) c rest Hend).
Qed.

(** ** JSON values *)

Lemma parse_value_string (f : nat) (s rest : jsstring) :
  JSON.parse_value (S f) (JSON.QuoteJSONString s ++ rest) = Ok (JSON.VString s, rest).
Proof.
  unfold JSON.QuoteJSONString. cbn [app JSON.parse_value JSON.skip_ws].
  change (JSON.isJSONWhiteSpace JSON.QUOTE) with false.
  change (JSON.QUOTE =? JSON.LBRACKET) with false.
  change (JSON.QUOTE =? JSON.LBRACE) with false.
  change (JSON.QUOTE =? JSON.QUOTE) with true. cbv iota.
  rewrite <- app_assoc. cbn [app].
  now rewrite parse_chars_quote_chars.
Qed.

Lemma parse_value_boolean (f : nat) (b : bool) (rest : jsstring) :
  JSON.parse_value (S f) (JSON.Boolean_toString b ++ rest) = Ok (JSON.VBool b, rest).
Proof. destruct b; reflexivity. Qed.

Lemma number_head_dispatch (c : code_unit) :
  c = JSON.MINUS \/ JSON.isDigit c = true ->
  JSON.isJSONWhiteSpace c = false /\
  (c =? JSON.LBRACKET) = false /\ (c =? JSON.LBRACE) = false /\
  (c =? JSON.QUOTE) = false /\ ((c =? JSON.MINUS) || JSON.isDigit c) = true.
Proof.
  intros [->|H]; [repeat split|].
  unfold JSON.isDigit in H. apply andb_true_iff in H as [H1 H2].
  apply N.leb_le in H1, H2.
  assert (E : JSON.isDigit c = true).
  { unfold JSON.isDigit. apply andb_true_iff. split; now apply N.leb_le. }
  rewrite E, orb_true_r.
  unfold JSON.isJSONWhiteSpace, JSON.LBRACKET, JSON.LBRACE, JSON.QUOTE.
  repeat split; try (apply N.eqb_neq; lia).
  repeat (apply orb_false_iff; split); apply N.eqb_neq; lia.
Qed.

Lemma parse_value_number (f : nat) (n : Z) (c : code_unit) (rest : jsstring) :
  number_end c ->
  JSON.parse_value (S f) (JSON.Number_toString n ++ c :: rest) =
    Ok (JSON.VNumber (inject_Z n), c :: rest).
Proof.
  intros Hend.
  pose proof (parse_number_Number_toString n c rest Hend) as Hn.
  destruct (Number_toString_head n) as (h & tl & E & Hh).
  rewrite E in *. cbn [app] in *.
  destruct (number_head_dispatch h Hh) as (Hw & H1 & H2 & H3 & H4).
  cbn [JSON.parse_value JSON.skip_ws].
  now rewrite Hw, H1, H2, H3, H4, Hn.
Qed.

Lemma parse_members_comma (f : nat) (k vtext more : jsstring) (v : JSON.value) :
  JSON.parse_value f (vtext ++ JSON.COMMA :: more) = Ok (v, JSON.COMMA :: more) ->
  JSON.parse_members (S f)
    (JSON.QuoteJSONString k ++ JSON.COLON :: vtext ++ JSON.COMMA :: more) =
    match JSON.parse_members f more with
    | Ok (ms, r) => Ok ((k, v) :: ms, r)
    | SyntaxError => SyntaxError
    | OutOfFuel => OutOfFuel
    end.
Proof.
  intros Hv. unfold JSON.QuoteJSONString.
  cbn [app JSON.parse_members JSON.skip_ws].
  change (JSON.isJSONWhiteSpace JSON.QUOTE) with false.
  change (JSON.QUOTE =? JSON.QUOTE) with true. cbv iota.
  rewrite <- app_assoc. cbn [app].
  rewrite parse_chars_quote_chars. cbn [JSON.skip_ws].
  change (JSON.isJSONWhiteSpace JSON.COLON) with false.
  change (JSON.COLON =? JSON.COLON) with true. cbv iota.
  rewrite Hv. cbn [JSON.skip_ws].
  change (JSON.isJSONWhiteSpace JSON.COMMA) with false.
  change (JSON.COMMA =? JSON.COMMA) with true. cbv iota.
  reflexivity.
Qed.

Lemma parse_members_last (f : nat) (k vtext rest : jsstring) (v : JSON.value) :
  JSON.parse_value f (vtext ++ JSON.RBRACE :: rest) = Ok (v, JSON.RBRACE :: rest) ->
  JSON.parse_members (S f)
    (JSON.QuoteJSONString k ++ JSON.COLON :: vtext ++ JSON.RBRACE :: rest) =
    Ok ([(k, v)], rest).
Proof.
  intros Hv. unfold JSON.QuoteJSONString.
  cbn [app JSON.parse_members JSON.skip_ws].
  change (JSON.isJSONWhiteSpace JSON.QUOTE) with false.
  change (JSON.QUOTE =? JSON.QUOTE) with true. cbv iota.
  rewrite <- app_assoc. cbn [app].
  rewrite parse_chars_quote_chars. cbn [JSON.skip_ws].
  change (JSON.isJSONWhiteSpace JSON.COLON) with false.
  change (JSON.COLON =? JSON.COLON) with true. cbv iota.
  rewrite Hv. cbn [JSON.skip_ws].
  change (JSON.isJSONWhiteSpace JSON.RBRACE) with false.
  change (JSON.RBRACE =? JSON.COMMA) with false.
  change (JSON.RBRACE =? JSON.RBRACE) with true. cbv iota.
  reflexivity.
Qed.

Lemma stringify_Todo_app (t : Todo) (rest : jsstring) :
  stringify_Todo t ++ rest =
    JSON.LBRACE ::
    JSON.QuoteJSONString (str "id") ++ JSON.COLON ::
    JSON.Number_toString (id t) ++ JSON.COMMA ::
    JSON.QuoteJSONString (str "text") ++ JSON.COLON ::
    JSON.QuoteJSONString (text t) ++ JSON.COMMA ::
    JSON.QuoteJSONString (str "completed") ++ JSON.COLON ::
    JSON.Boolean_toString (completed t) ++ JSON.RBRACE :: rest.
Proof.
  unfold stringify_Todo, JSON.SerializeJSONObject.
  cbn [map JSON.join_comma fst snd].
  repeat (rewrite <- ?app_assoc, <- ?app_comm_cons). reflexivity.
Qed.

Lemma comma_number_end : number_end JSON.COMMA.
Proof. repeat split; discriminate. Qed.

Lemma parse_value_Todo (f : nat) (t : Todo) (rest : jsstring) :
  JSON.parse_value (5 + f) (stringify_Todo t ++ rest) = Ok (value_of_Todo t, rest).
Proof.
  rewrite stringify_Todo_app.
  change (5 + f)%nat with (S (S (S (S (S f))))).
  cbn [JSON.parse_value JSON.skip_ws].
  change (JSON.isJSONWhiteSpace JSON.LBRACE) with false.
  change (JSON.LBRACE =? JSON.LBRACKET) with false.
  change (JSON.LBRACE =? JSON.LBRACE) with true. cbv iota.
  change (JSON.QuoteJSONString (str "id") ++ ?x)
    with (JSON.QUOTE :: (JSON.quote_chars (str "id") ++ [JSON.QUOTE]) ++ x) at 1.
  cbn [JSON.skip_ws].
  change (JSON.isJSONWhiteSpace JSON.QUOTE) with false.
  change (JSON.QUOTE =? JSON.RBRACE) with false. cbv iota.
  change (JSON.QUOTE :: (JSON.quote_chars (str "id") ++ [JSON.QUOTE]) ++ ?x)
    with (JSON.QuoteJSONString (str "id") ++ x).
  rewrite (parse_members_comma _ _ _ _ (VNumber (inject_Z (id t))))
    by (apply parse_value_number, comma_number_end).
  rewrite (parse_members_comma _ _ _ _ (VString (text t)))
    by apply parse_value_string.
  rewrite (parse_members_last _ _ _ _ (VBool (completed t)))
    by apply parse_value_boolean.
  reflexivity.
Qed.

Lemma stringify_Todo_head (t : Todo) :
  exists tl, stringify_Todo t = LBRACE :: tl.
Proof. eexists. reflexivity. Qed.

Lemma parse_elements_todos (l : list Todo) :
  forall (t : Todo) (f : nat) (rest : jsstring),
    parse_elements (List.length l + 6 + f)
      (join_comma (map stringify_Todo (t :: l)) ++ RBRACKET :: rest) =
      Ok (map value_of_Todo (t :: l), rest).
Proof.
  induction l as [|u l IH]; intros t f rest.
  - cbn [map join_comma List.length Nat.add parse_elements].
    rewrite (parse_value_Todo f t). cbn [skip_ws].
    change (isJSONWhiteSpace RBRACKET) with false.
    change (RBRACKET =? COMMA) with false.
    change (RBRACKET =? RBRACKET) with true. reflexivity.
  - change (map stringify_Todo (t :: u :: l))
      with (stringify_Todo t :: map stringify_Todo (u :: l)).
    change (join_comma (stringify_Todo t :: map stringify_Todo (u :: l)))
      with (stringify_Todo t ++ COMMA :: join_comma (map stringify_Todo (u :: l))).
    rewrite <- app_assoc. cbn [app].
    change (List.length (u :: l) + 6 + f)%nat
      with (S (List.length l + 6 + f)).
    cbn [parse_elements].
    replace (List.length l + 6 + f)%nat with (5 + (List.length l + 1 + f))%nat at 1 by lia.
    rewrite parse_value_Todo. cbn [skip_ws].
    change (isJSONWhiteSpace COMMA) with false.
    change (COMMA =? COMMA) with true. cbv iota.
    now rewrite IH.
Qed.

Lemma parse_value_todos (l : list Todo) (f : nat) (rest : jsstring) :
  parse_value (List.length l + 6 + f) (stringify l ++ rest) =
    Ok (value_of_todos l, rest).
Proof.
  unfold stringify, SerializeJSONArray, value_of_todos.
  destruct l as [|t l].
  - reflexivity.
  - change (List.length (t :: l) + 6 + f)%nat with (S (List.length l + 6 + f)).
    rewrite <- app_comm_cons, <- app_assoc. cbn [app].
    cbn [parse_value skip_ws].
    change (isJSONWhiteSpace LBRACKET) with false.
    change (LBRACKET =? LBRACKET) with true. cbv iota.
    destruct (stringify_Todo_head t) as [tl E].
    assert (Hs : exists tl', join_comma (map stringify_Todo (t :: l)) ++ RBRACKET :: rest
                             = LBRACE :: tl').
    { destruct l; cbn [map join_comma]; rewrite E; eexists; reflexivity. }
    destruct Hs as [tl' Hs].
    pose proof (parse_elements_todos l t f rest) as Hp.
    rewrite Hs in *. cbn [skip_ws].
    change (isJSONWhiteSpace LBRACE) with false.
    change (LBRACE =? RBRACKET) with false. cbv iota.
    now rewrite Hp.
Qed.

Lemma length_stringify_Todo (t : Todo) : (5 <= List.length (stringify_Todo t))%nat.
Proof.
  rewrite <- (app_nil_r (stringify_Todo t)), stringify_Todo_app.
  unfold QuoteJSONString. simpl. rewrite !length_app. simpl. lia.
Qed.

Lemma length_join_comma_todos (l : list Todo) :
  (5 * List.length l <= List.length (join_comma (map stringify_Todo l)))%nat.
Proof.
  induction l as [|t l IH]; [apply Nat.le_refl|].
  pose proof (length_stringify_Todo t) as Ht.
  destruct l as [|u l].
  - simpl in *. lia.
  - change (join_comma (map stringify_Todo (t :: u :: l)))
      with (stringify_Todo t ++ COMMA :: join_comma (map stringify_Todo (u :: l))).
    rewrite length_app. simpl List.length in *. lia.
Qed.

Theorem parse_stringify (l : list Todo) :
  JSON.parse (stringify l) = Some (value_of_todos l).
Proof.
  destruct l as [|t l]; [reflexivity|].
  unfold parse, parse_text, parse_fuel.
  assert (Hlen : (5 * List.length (t :: l) + 2 <= List.length (stringify (t :: l)))%nat).
  { unfold stringify, SerializeJSONArray.
    pose proof (length_join_comma_todos (t :: l)).
    simpl List.length in *. rewrite length_app. simpl List.length. lia. }
  remember (t :: l) as l' eqn:El.
  replace (2 * List.length (stringify l') + 1)%nat
    with (List.length l' + 6 + (2 * List.length (stringify l') + 1 - List.length l' - 6))%nat
    by (subst l'; simpl List.length in *; lia).
  rewrite <- (app_nil_r (stringify l')) at 2.
  now rewrite parse_value_todos.
Qed.

(** ** Termination of parsing *)

Lemma skip_ws_length (s : jsstring) : (List.length (skip_ws s) <= List.length s)%nat.
Proof.
  induction s as [|c r IH]; simpl; [lia|].
  destruct (isJSONWhiteSpace c); simpl; lia.
Qed.

Lemma skip_ws_cons_length (s r : jsstring) (c : code_unit) :
  skip_ws s = c :: r -> (List.length r < List.length s)%nat.
Proof.
  intros E. pose proof (skip_ws_length s) as H. rewrite E in H. simpl in H. lia.
Qed.

Lemma cons_chars_length (c : code_unit) (p : option (jsstring * jsstring)) (n : nat) k r :
  (forall k' r', p = Some (k', r') -> (List.length r' < n)%nat) ->
  cons_chars c p = Some (k, r) -> (List.length r < n)%nat.
Proof.
  intros H. destruct p as [[k' r']|]; simpl; [|discriminate].
  intros E. injection E as _ <-. now apply (H k').
Qed.

Lemma parse_chars_length_le (n : nat) (s k r : jsstring) :
  (List.length s <= n)%nat ->
  parse_chars s = Some (k, r) -> (List.length r < List.length s)%nat.
Proof.
  revert s k r. induction n as [|n IH]; intros s k r Hn.
  - destruct s; [discriminate|simpl in Hn; lia].
  - destruct s as [|c s]; [discriminate|]. simpl in Hn. cbn [parse_chars].
    destruct (c =? QUOTE).
    { intros E. injection E as _ <-. simpl. lia. }
    destruct (c =? BACKSLASH).
    + destruct s as [|e r1]; [discriminate|].
      destruct (e =? 117).
      * destruct r1 as [|h1 [|h2 [|h3 [|h4 r2]]]]; try discriminate.
        destruct (hex_value h1), (hex_value h2), (hex_value h3), (hex_value h4);
          try discriminate.
        apply cons_chars_length. intros k' r' E.
        apply IH in E; simpl in *; lia.
      * destruct (unescape e); [|discriminate].
        apply cons_chars_length. intros k' r' E.
        apply IH in E; simpl in *; lia.
    + destruct (c <? 32); [discriminate|].
      apply cons_chars_length. intros k' r' E.
      apply IH in E; simpl in *; lia.
Qed.

Lemma parse_chars_length (s k r : jsstring) :
  parse_chars s = Some (k, r) -> (List.length r < List.length s)%nat.
Proof. now apply (parse_chars_length_le (List.length s)). Qed.

Lemma scan_digits_length (s : jsstring) :
  (List.length (snd (scan_digits s)) <= List.length s)%nat.
Proof.
  induction s as [|c r IH]; simpl; [lia|].
  destruct (isDigit c); simpl; [|lia].
  destruct (scan_digits r); simpl in *. lia.
Qed.

Lemma parse_int_length (s r : jsstring) (d : Decimal.uint) :
  parse_int s = Some (d, r) -> (List.length r < List.length s)%nat.
Proof.
  unfold parse_int. destruct s as [|c s]; [discriminate|].
  destruct (c =? 48).
  - intros E. injection E as _ <-. simpl. lia.
  - destruct (isDigit c) eqn:Hd; [|discriminate].
    intros E. injection E as E.
    pose proof (scan_digits_length s) as H.
    cbn [scan_digits] in E. rewrite Hd in E.
    destruct (scan_digits s) as [d' r']. injection E as _ <-. simpl in *. lia.
Qed.

Lemma parse_frac_length (s r : jsstring) (d : Decimal.uint) :
  parse_frac s = Some (d, r) -> (List.length r <= List.length s)%nat.
Proof.
  unfold parse_frac. destruct s as [|c s].
  - intros E. now injection E as _ <-.
  - destruct (c =? DOT).
    + pose proof (scan_digits_length s) as H.
      destruct (scan_digits s) as [d' r']. simpl in H.
      destruct d'; try discriminate; intros E; injection E as _ <-; simpl; lia.
    + intros E. now injection E as _ <-.
Qed.

Lemma parse_exp_length (s r : jsstring) (x : Z) :
  parse_exp s = Some (x, r) -> (List.length r <= List.length s)%nat.
Proof.
  unfold parse_exp. destruct s as [|c s].
  - intros E. now injection E as _ <-.
  - destruct ((c =? 101) || (c =? 69)).
    + set (p := match s with
                | [] => (false, s)
                | g :: r0 => if g =? PLUS then (false, r0)
                             else if g =? MINUS then (true, r0) else (false, s)
                end).
      assert (Hp : (List.length (snd p) <= List.length s)%nat).
      { subst p. destruct s as [|g r0]; simpl; [lia|].
        destruct (g =? PLUS); simpl; [lia|]. destruct (g =? MINUS); simpl; lia. }
      destruct p as [neg r1]. simpl in Hp.
      pose proof (scan_digits_length r1) as H.
      destruct (scan_digits r1) as [d' r']. simpl in H.
      destruct d'; try discriminate; intros E; injection E as _ <-; simpl; lia.
    + intros E. now injection E as _ <-.
Qed.

Lemma parse_number_length (s r : jsstring) (q : Q) :
  parse_number s = Some (q, r) -> (List.length r < List.length s)%nat.
Proof.
  unfold parse_number.
  set (p := match s with
            | [] => (false, s)
            | c :: r => if c =? MINUS then (true, r) else (false, s)
            end).
  assert (Hp : (List.length (snd p) <= List.length s)%nat).
  { subst p. destruct s as [|c s']; simpl; [lia|].
    destruct (c =? MINUS); simpl; lia. }
  destruct p as [neg s1]. simpl in Hp.
  destruct (parse_int s1) as [[int s2]|] eqn:Ei; [|discriminate].
  apply parse_int_length in Ei.
  destruct (parse_frac s2) as [[frac s3]|] eqn:Ef; [|discriminate].
  apply parse_frac_length in Ef.
  destruct (parse_exp s3) as [[x s4]|] eqn:Ee; [|discriminate].
  apply parse_exp_length in Ee.
  intros E. injection E as _ <-. lia.
Qed.

Lemma strip_prefix_length (p s r : jsstring) :
  strip_prefix p s = Some r -> List.length s = (List.length p + List.length r)%nat.
Proof.
  revert s; induction p as [|a p IH]; intros s; simpl.
  - intros E. now injection E as <-.
  - destruct s as [|b s]; [discriminate|].
    destruct (a =? b); [|discriminate].
    intros E. apply IH in E. simpl. lia.
Qed.

Lemma parse_progress (f : nat) :
  (forall s, (2 * List.length s < f)%nat -> progress s (parse_value f s)) /\
  (forall s, (2 * List.length s + 1 < f)%nat -> progress s (parse_elements f s)) /\
  (forall s, (2 * List.length s + 1 < f)%nat -> progress s (parse_members f s)).
Proof.
  induction f as [|f (IHv & IHe & IHm)]; [repeat split; intros; lia|].
  repeat split; intros s Hf.
  - cbn [parse_value].
    destruct (skip_ws s) as [|c r] eqn:Es; [exact I|].
    apply skip_ws_cons_length in Es.
    destruct (c =? LBRACKET).
    { destruct (skip_ws r) as [|c' r'] eqn:Er; [exact I|].
      apply skip_ws_cons_length in Er.
      destruct (c' =? RBRACKET); [simpl; lia|].
      specialize (IHe r ltac:(lia)).
      destruct (parse_elements f r) as [[vs r1]| |]; simpl in *; auto; lia. }
    destruct (c =? LBRACE).
    { destruct (skip_ws r) as [|c' r'] eqn:Er; [exact I|].
      apply skip_ws_cons_length in Er.
      destruct (c' =? RBRACE); [simpl; lia|].
      specialize (IHm r ltac:(lia)).
      destruct (parse_members f r) as [[ms r1]| |]; simpl in *; auto; lia. }
    destruct (c =? QUOTE).
    { destruct (parse_chars r) as [[k r1]|] eqn:Ec; [|exact I].
      apply parse_chars_length in Ec. simpl. lia. }
    destruct ((c =? MINUS) || isDigit c).
    { destruct (parse_number (c :: r)) as [[q r1]|] eqn:En; [|exact I].
      apply parse_number_length in En. simpl in *. lia. }
    destruct (strip_prefix (str "true") (c :: r)) as [r1|] eqn:E1.
    { apply strip_prefix_length in E1. simpl in *. lia. }
    destruct (strip_prefix (str "false") (c :: r)) as [r1|] eqn:E2.
    { apply strip_prefix_length in E2. simpl in *. lia. }
    destruct (strip_prefix (str "null") (c :: r)) as [r1|] eqn:E3; [|exact I].
    apply strip_prefix_length in E3. simpl in *. lia.
  - cbn [parse_elements].
    specialize (IHv s ltac:(lia)).
    destruct (parse_value f s) as [[v r]| |]; simpl in IHv; auto.
    destruct (skip_ws r) as [|c r'] eqn:Er; [exact I|].
    apply skip_ws_cons_length in Er.
    destruct (c =? COMMA).
    + specialize (IHe r' ltac:(lia)).
      destruct (parse_elements f r') as [[vs r1]| |]; simpl in *; auto; lia.
    + destruct (c =? RBRACKET); simpl; [lia|exact I].
  - cbn [parse_members].
    destruct (skip_ws s) as [|c r] eqn:Es; [exact I|].
    apply skip_ws_cons_length in Es.
    destruct (c =? QUOTE); [|exact I].
    destruct (parse_chars r) as [[k r1]|] eqn:Ec; [|exact I].
    apply parse_chars_length in Ec.
    destruct (skip_ws r1) as [|c1 r2] eqn:E1; [exact I|].
    apply skip_ws_cons_length in E1.
    destruct (c1 =? COLON); [|exact I].
    specialize (IHv r2 ltac:(lia)).
    destruct (parse_value f r2) as [[v r3]| |]; simpl in IHv; auto.
    destruct (skip_ws r3) as [|c3 r4] eqn:E3; [exact I|].
    apply skip_ws_cons_length in E3.
    destruct (c3 =? COMMA).
    + specialize (IHm r4 ltac:(lia)).
      destruct (parse_members f r4) as [[ms r5]| |]; simpl in *; auto; lia.
    + destruct (c3 =? RBRACE); simpl; [lia|exact I].
Qed.

(** [JSON.parse] never stops for lack of fuel: when it gives no value,
    the text is not JSON and [JSON.parse] throws a SyntaxError. *)
Theorem parse_None_SyntaxError (text : jsstring) :
  parse_text (parse_fuel text) text <> OutOfFuel /\
  (parse text = None <-> parse_text (parse_fuel text) text = SyntaxError).
Proof.
  assert (H : parse_text (parse_fuel text) text <> OutOfFuel).
  { unfold parse_text.
    pose proof (proj1 (parse_progress (parse_fuel text)) text) as Hp.
    unfold parse_fuel in *. specialize (Hp ltac:(lia)).
    destruct (parse_value _ text) as [[v r]| |]; simpl in Hp;
      [destruct (skip_ws r)| |]; try discriminate. contradiction. }
  split; [exact H|].
  unfold parse. destruct (parse_text _ text); split; congruence.
Qed.

End Parsing.

(** ** Loading and saving *)

Lemma as_Todo_value_of_Todo (t : Todo) :
  isSafeInteger (id t) = true -> as_Todo (value_of_Todo t) = Some t.
Proof.
  intros H. unfold as_Todo, value_of_Todo. cbn [inject_Z Qnum Qden].
  rewrite H. now destruct t.
Qed.

Lemma as_todos_value_of_todos (l : list Todo) :
  safe_ids l -> as_todos (value_of_todos l) = Some l.
Proof.
  unfold as_todos, value_of_todos.
  induction 1 as [|t l Ht _ IH]; [reflexivity|].
  cbn [map as_Todo_list]. now rewrite as_Todo_value_of_Todo, IH.
Qed.

(** The first effect, over what the second effect stored, calls
    [setTodos] with the list that was stored. *)
Lemma load_effect_stringify (l : list Todo) :
  load_effect (Some (stringify l)) = Returns (Some (value_of_todos l)).
Proof.
  pose proof (parse_stringify l) as H.
  unfold load_effect. destruct (stringify l) as [|c s] eqn:E; [discriminate|].
  now rewrite H.
Qed.

(** What mounting leaves in [todos]: the empty list, or the list the
    stored text parses to. *)
Lemma mount_todos (stored : option jsstring) (a : App) :
  mount stored = Returns a ->
  todos a = [] \/
  exists s v, stored = Some s /\ JSON.parse s = Some v /\ as_todos v = Some (todos a).
Proof.
  unfold mount, load_effect. cbn [init localStorage].
  destruct stored as [[|c s]|].
  - intros E. injection E as <-. now left.
  - destruct (JSON.parse (c :: s)) as [v|] eqn:Ep; [|discriminate].
    destruct (as_todos v) as [l|] eqn:El; [|discriminate].
    intros E. injection E as <-. right. exists (c :: s), v. auto.
  - intros E. injection E as <-. now left.
Qed.

(** C1, as the specification states it, fails: over the stored value
    [not valid json], [JSON.parse] throws, the first effect does not
    catch it and mounting ends in the exception, not in a component
    with an empty list. *)
Lemma load_not_valid_json_throws :
  JSON.parse (str "not valid json") = None /\
  load_effect (Some (str "not valid json")) = Throws /\
  mount (Some (str "not valid json")) = Throws /\
  ~ (exists a, mount (Some (str "not valid json")) = Returns a /\ todos a = []).
Proof.
  repeat split; try reflexivity.
  intros (a & H & _). vm_compute in H. discriminate.
Qed.

(** C1, amended. When the value stored under ['todos'] is a non-empty
    string that is not a JSON text, [JSON.parse] throws a SyntaxError
    which the first effect does not catch: loading ends in that
    exception and [setTodos] is never called.  ([JSON.parse s = None]
    is the SyntaxError and nothing else, by [parse_None_SyntaxError].) *)
Theorem load_unparsable_throws (s : jsstring)
    (Hpresent : s <> []) (Hbad : JSON.parse s = None) :
  load_effect (Some s) = Throws /\ mount (Some s) = Throws.
Proof.
  assert (H : load_effect (Some s) = Throws).
  { unfold load_effect. destruct s; [contradiction|]. now rewrite Hbad. }
  split; [exact H|]. unfold mount. cbn [init localStorage]. now rewrite H.
Qed.

Lemma load_unparsable_throws_witness :
  str "not valid json" <> [] /\ JSON.parse (str "not valid json") = None /\
  mount (Some (str "not valid json")) = Throws.
Proof.
  assert (H1 : str "not valid json" <> []) by discriminate.
  assert (H2 : JSON.parse (str "not valid json") = None) by reflexivity.
  split; [exact H1|]. split; [exact H2|].
  exact (proj2 (load_unparsable_throws _ H1 H2)).
Defined.

(** The stored empty string is falsy: it is not parsed, nothing is
    thrown and the list stays empty. *)
Lemma load_empty_string_ignored :
  load_effect (Some []) = Returns None /\
  exists a, mount (Some []) = Returns a /\ todos a = [].
Proof. split; [reflexivity|]. eexists. split; reflexivity. Qed.

(** C3. What the second effect stores for a list of todos with safe
    integer ids, a component mounted afresh over it loads as the same
    list: the same todos, field by field, in the same order. *)
Theorem save_then_load (a0 : App) (Hsafe : safe_ids (todos a0)) :
  exists a, mount (localStorage (save_effect a0)) = Returns a /\
            todos a = todos a0.
Proof.
  unfold mount. cbn [save_effect localStorage init].
  rewrite load_effect_stringify, (as_todos_value_of_todos _ Hsafe).
  eexists. split; reflexivity.
Qed.

Lemma save_then_load_witness :
  let a0 :=
    setTodos
      [{| id := 1700000000000; text := str "buy milk"; completed := false |};
       {| id := 1700000000001;
          text := [0xD83D; 0xDC36; 0x22; 0x0A; 0xDC00; 0x5C]%N;
          completed := true |}]
      (init None) in
  safe_ids (todos a0) /\
  exists a, mount (localStorage (save_effect a0)) = Returns a /\ todos a = todos a0.
Proof.
  intros a0.
  assert (H : safe_ids (todos a0)) by (repeat constructor).
  split; [exact H|]. exact (save_then_load a0 H).
Defined.

(** ** Distinct ids *)

(** C2, as the specification states it, fails: two submits that read
    the same clock value give two todos with one id. *)
Lemma same_clock_reading_duplicates_id :
  let a := run (save_effect (init None))
               [Change (str "buy milk"); Submit 1700000000000;
                Change (str "walk dog"); Submit 1700000000000] in
  reachable a /\
  ids (todos a) = [1700000000000; 1700000000000]%Z /\
  ~ NoDup (ids (todos a)).
Proof.
  intros a. split; [|split].
  - exists None, (save_effect (init None)),
      [Change (str "buy milk"); Submit 1700000000000;
       Change (str "walk dog"); Submit 1700000000000].
    split; reflexivity.
  - reflexivity.
  - intros H. change (ids (todos a)) with [1700000000000; 1700000000000]%Z in H.
    inversion H as [|x l Hnin _]; subst. apply Hnin. now left.
Qed.

(** No handler brings a repeated id into a list without one, a submit
    that appends apart, which needs a clock reading that is not an id
    yet. *)
Lemma handle_keeps_ids_distinct (a : App) (e : event) :
  NoDup (ids (todos a)) -> fresh_clock a e -> NoDup (ids (todos (handle a e))).
Proof.
  intros Hnd Hfresh. destruct e as [s|now|i|i| | |f]; cbn [handle].
  - exact Hnd.
  - unfold addTodo. destruct (String_eqb (trim (input a)) []) eqn:E; [exact Hnd|].
    cbn [setInput setTodos save_effect todos].
    destruct Hfresh as [Hb|Hfresh]; [apply String_eqb_neq in E; contradiction|].
    unfold ids in *. rewrite map_app. cbn [map id].
    apply NoDup_app.
    + exact Hnd.
    + repeat constructor. intros [].
    + intros x Hx [<-|[]]. contradiction.
  - rewrite todos_toggleComplete, ids_map_toggled. exact Hnd.
  - rewrite todos_deleteTodo. now apply NoDup_ids_filter.
  - rewrite todos_clearCompleted. now apply NoDup_ids_filter.
  - constructor.
  - exact Hnd.
Qed.

(** C2, amended. Mount the component over a storage whose list, if it
    holds one, has distinct ids, and let any events follow in which
    every submit that appends reads a clock value that is not an id of
    the list at that moment.  Then the ids of the list are distinct in
    the state reached, and still are after one more such event. *)
Theorem ids_distinct_invariant
    (stored : option jsstring) (a0 : App) (es : list event)
    (Hmount : mount stored = Returns a0)
    (Hstored : stored_ids_distinct stored)
    (Hfresh : fresh_clocks a0 es) :
  NoDup (ids (todos (run a0 es))) /\
  (forall e, fresh_clock (run a0 es) e ->
             NoDup (ids (todos (handle (run a0 es) e)))).
Proof.
  assert (H0 : NoDup (ids (todos a0))).
  { destruct (mount_todos stored a0 Hmount) as [E|(s & v & Es & Ep & El)].
    - rewrite E. constructor.
    - exact (Hstored s v (todos a0) Es Ep El). }
  clear Hmount Hstored.
  assert (H : NoDup (ids (todos (run a0 es)))).
  { revert a0 H0 Hfresh. induction es as [|e es IH]; intros a0 Hnd Hfresh.
    - exact Hnd.
    - destruct Hfresh as [He Hes]. cbn [run fold_left].
      apply IH; [|exact Hes]. now apply handle_keeps_ids_distinct. }
  split; [exact H|]. intros e He. now apply handle_keeps_ids_distinct.
Qed.

Lemma ids_distinct_invariant_witness :
  let l := [{| id := 1700000000000; text := str "buy milk"; completed := false |};
            {| id := 1700000000001; text := str "walk dog"; completed := true |}] in
  let stored := Some (stringify l) in
  let a0 := setTodos l (save_effect (init stored)) in
  let es := [Change (str "call mum"); Submit 1700000000002;
             ClickComplete 1700000000000; ClickDelete 1700000000001] in
  mount stored = Returns a0 /\
  stored_ids_distinct stored /\
  fresh_clocks a0 es /\
  NoDup (ids (todos (run a0 es))).
Proof.
  intros l stored a0 es.
  assert (Hm : mount stored = Returns a0) by reflexivity.
  assert (Hs : stored_ids_distinct stored).
  { intros s v l' Es Ep El. injection Es as <-.
    vm_compute in Ep. injection Ep as <-.
    vm_compute in El. injection El as <-.
    repeat constructor; simpl; intuition discriminate. }
  assert (Hf : fresh_clocks a0 es).
  { simpl. repeat split. right. simpl. intuition discriminate. }
  split; [exact Hm|]. split; [exact Hs|]. split; [exact Hf|].
  exact (proj1 (ids_distinct_invariant stored a0 es Hm Hs Hf)).
Defined.

(** ** Adding *)

(** C4. [add(text)] with a text that trims to the empty string changes
    neither the list nor the storage and writes nothing; with any
    other text it appends one todo, whose id is the clock reading taken
    at the call and whose [completed] is false, after the todos already
    there, which stay as they are. *)
Theorem add_blank_or_append (a : App) (s : jsstring) (now : Z) :
  (trim s = [] ->
     todos (add s now a) = todos a /\
     localStorage (add s now a) = localStorage a /\
     setItem_log (add s now a) = setItem_log a) /\
  (trim s <> [] ->
     todos (add s now a) =
       todos a ++ [{| id := now; text := s; completed := false |}]).
Proof.
  unfold add, addTodo. simpl. split; intros H.
  - apply String_eqb_eq in H. rewrite H. now simpl.
  - apply String_eqb_neq in H. rewrite H. reflexivity.
Qed.

(** ** Toggling *)

(** C5. On a list with distinct ids, [toggleComplete(id)] keeps the
    length, the ids and the texts position by position, leaves every
    todo with another id as it is, and negates [completed] of the todo
    with that id, which sits at one position only; when no todo has that
    id the list is unchanged. *)
Theorem toggleComplete_frame (a : App) (i : Z)
    (Hdistinct : NoDup (ids (todos a))) :
  let l := todos a in
  let l' := todos (toggleComplete i a) in
  List.length l' = List.length l /\
  ids l' = ids l /\
  map text l' = map text l /\
  (forall n t, nth_error l n = Some t -> id t <> i -> nth_error l' n = Some t) /\
  (forall n t, nth_error l n = Some t -> id t = i ->
     nth_error l' n =
       Some {| id := id t; text := text t; completed := negb (completed t) |} /\
     (forall m u, nth_error l m = Some u -> id u = i -> m = n)) /\
  (~ In i (ids l) -> l' = l).
Proof.
  intros l l'. unfold l'. rewrite todos_toggleComplete. fold l.
  repeat split.
  - apply length_map.
  - apply ids_map_toggled.
  - rewrite map_map. apply map_ext. intros t. apply text_toggled.
  - intros n t Hn Ht. rewrite nth_error_map, Hn. simpl.
    now rewrite toggled_other.
  - rewrite nth_error_map, H. simpl. now rewrite toggled_same.
  - intros m u Hm Hu.
    apply (NoDup_ids_position l m n u t Hdistinct Hm H). congruence.
  - apply map_toggled_absent.
Qed.

Lemma toggleComplete_frame_witness :
  let a := setTodos [{| id := 1; text := str "buy milk"; completed := false |};
                     {| id := 2; text := str "walk dog"; completed := true |}]
                    (init None) in
  NoDup (ids (todos a)) /\
  (forall n t, nth_error (todos a) n = Some t -> id t = 1%Z ->
     nth_error (todos (toggleComplete 1 a)) n =
       Some {| id := id t; text := text t; completed := negb (completed t) |} /\
     (forall m u, nth_error (todos a) m = Some u -> id u = 1%Z -> m = n)).
Proof.
  intros a.
  assert (Hd : NoDup (ids (todos a))).
  { simpl. repeat constructor; simpl; intuition discriminate. }
  split; [exact Hd|].
  apply (toggleComplete_frame a 1 Hd).
Defined.

(** C6. Toggling the same id twice, the id being that of a todo in the
    list, gives back the list, and with it the original [completed] of
    that todo. *)
Theorem toggleComplete_twice (a : App) (i : Z) (Hpresent : In i (ids (todos a))) :
  todos (toggleComplete i (toggleComplete i a)) = todos a.
Proof.
  rewrite !todos_toggleComplete, map_map.
  rewrite <- (map_id (todos a)) at 2.
  apply map_ext. intros t. apply toggled_involutive.
Qed.

Lemma toggleComplete_twice_witness :
  let a := setTodos [{| id := 1; text := str "buy milk"; completed := false |};
                     {| id := 2; text := str "walk dog"; completed := true |}]
                    (init None) in
  In 2%Z (ids (todos a)) /\
  todos (toggleComplete 2 (toggleComplete 2 a)) = todos a.
Proof.
  intros a.
  assert (Hin : In 2%Z (ids (todos a))) by (simpl; auto).
  split; [exact Hin|]. exact (toggleComplete_twice a 2 Hin).
Defined.

(** ** Deleting and clearing *)

(** C7. On a list with distinct ids, [delete(id)] removes the todo with
    that id and keeps the todos before and after it, in order; when no
    todo has that id the list is unchanged. *)
Theorem deleteTodo_removes (a : App) (i : Z)
    (Hdistinct : NoDup (ids (todos a))) :
  (forall l1 t l2, todos a = l1 ++ t :: l2 -> id t = i ->
     todos (deleteTodo i a) = l1 ++ l2) /\
  (~ In i (ids (todos a)) -> todos (deleteTodo i a) = todos a).
Proof.
  rewrite todos_deleteTodo. split.
  - intros l1 t l2 E Ht. rewrite E in *.
    unfold ids in Hdistinct. rewrite map_app in Hdistinct. simpl in Hdistinct.
    pose proof (NoDup_remove_2 _ _ _ Hdistinct) as Hnin.
    rewrite Ht in Hnin.
    rewrite filter_app. simpl.
    destruct (Z.eqb_spec (id t) i); [simpl|contradiction].
    rewrite !filter_id_absent; [reflexivity| |];
      unfold ids; intros Hin; apply Hnin, in_or_app; auto.
  - apply filter_id_absent.
Qed.

Lemma deleteTodo_removes_witness :
  let a := setTodos [{| id := 1; text := str "buy milk"; completed := false |};
                     {| id := 2; text := str "walk dog"; completed := true |};
                     {| id := 3; text := str "call mum"; completed := false |}]
                    (init None) in
  NoDup (ids (todos a)) /\
  todos (deleteTodo 2 a) =
    [{| id := 1; text := str "buy milk"; completed := false |}] ++
    [{| id := 3; text := str "call mum"; completed := false |}].
Proof.
  intros a.
  assert (Hd : NoDup (ids (todos a))).
  { simpl. repeat constructor; simpl; intuition discriminate. }
  split; [exact Hd|].
  apply (proj1 (deleteTodo_removes a 2 Hd)
               [{| id := 1; text := str "buy milk"; completed := false |}]
               {| id := 2; text := str "walk dog"; completed := true |}
               [{| id := 3; text := str "call mum"; completed := false |}]);
    reflexivity.
Defined.

(** C8. After [clearCompleted()] the list holds the todos that had
    [completed = false], and only those, in their original order: it
    is a subsequence of the list before, and every subsequence of the
    list before made of todos with [completed = false] is a subsequence
    of it. *)
Theorem clearCompleted_keeps_pending (a : App) :
  (forall t, In t (todos (clearCompleted a)) <->
             In t (todos a) /\ completed t = false) /\
  Subsequence (todos (clearCompleted a)) (todos a) /\
  (forall s, Subsequence s (todos a) ->
             (forall t, In t s -> completed t = false) ->
             Subsequence s (todos (clearCompleted a))).
Proof.
  rewrite todos_clearCompleted. repeat split.
  - now apply filter_In in H.
  - apply filter_In in H as [_ H]. now apply negb_true_iff in H.
  - intros [Hin Hc]. apply filter_In. split; [exact Hin|]. now rewrite Hc.
  - apply filter_Subsequence.
  - intros s Hs Hp. apply Subsequence_filter_greatest; [exact Hs|].
    intros t Ht. now rewrite (Hp t Ht).
Qed.

(** ** The filtered view *)

Lemma visibleTasks_all (a : App) : visibleTasks (str "all") a = todos a.
Proof. apply filter_all_true. Qed.

Lemma visibleTasks_pending (a : App) :
  visibleTasks (str "pending") a =
    List.filter (fun todo => negb (completed todo)) (todos a).
Proof. reflexivity. Qed.

Lemma visibleTasks_completed (a : App) :
  visibleTasks (str "completed") a =
    List.filter (fun todo => completed todo) (todos a).
Proof. reflexivity. Qed.

(** C9. A todo of the list is in [visibleTasks("all")]; it is in
    [visibleTasks("pending")] exactly when its [completed] is false and
    in [visibleTasks("completed")] exactly when it is true; each of the
    three views is a subsequence of the list, and selecting a filter
    changes neither the list nor the storage. *)
Theorem visibleTasks_membership (a : App) (t : Todo) (Hin : In t (todos a)) :
  In t (visibleTasks (str "all") a) /\
  (In t (visibleTasks (str "pending") a) <-> completed t = false) /\
  (In t (visibleTasks (str "completed") a) <-> completed t = true) /\
  (forall f, In f [str "all"; str "pending"; str "completed"] ->
     Subsequence (visibleTasks f a) (todos a) /\
     todos (setFilter f a) = todos a /\
     localStorage (setFilter f a) = localStorage a /\
     setItem_log (setFilter f a) = setItem_log a).
Proof.
  rewrite visibleTasks_all, visibleTasks_pending, visibleTasks_completed.
  repeat split; try assumption.
  - intros H. apply filter_In in H as [_ H]. now apply negb_true_iff in H.
  - intros H. apply filter_In. split; [exact Hin|]. now rewrite H.
  - intros H. now apply filter_In in H as [_ H].
  - intros H. apply filter_In. now split.
  - apply filter_Subsequence.
Qed.

Lemma visibleTasks_membership_witness :
  let t1 := {| id := 1; text := str "buy milk"; completed := true |} in
  let t2 := {| id := 2; text := str "walk dog"; completed := false |} in
  let a := setTodos [t1; t2] (init None) in
  In t1 (todos a) /\
  In t1 (visibleTasks (str "all") a) /\
  (In t1 (visibleTasks (str "pending") a) <-> completed t1 = false) /\
  (In t1 (visibleTasks (str "completed") a) <-> completed t1 = true).
Proof.
  intros t1 t2 a.
  assert (Hin : In t1 (todos a)) by (simpl; auto).
  split; [exact Hin|].
  pose proof (visibleTasks_membership a t1 Hin) as (H1 & H2 & H3 & _).
  exact (conj H1 (conj H2 H3)).
Defined.

(** C10. With a filter that is neither ["pending"] nor ["completed"],
    whether it is ["all"] or any other string, the view is the whole
    list. *)
Theorem filteredTodos_other_filter (a : App) (f : jsstring)
    (Hpending : f <> str "pending") (Hcompleted : f <> str "completed") :
  visibleTasks f a = todos a /\
  (filter a = f -> filteredTodos a = todos a).
Proof.
  apply String_eqb_neq in Hpending, Hcompleted.
  split.
  - unfold visibleTasks, filteredTodos. simpl.
    rewrite Hpending, Hcompleted. apply filter_all_true.
  - intros E. unfold filteredTodos. rewrite E, Hpending, Hcompleted.
    apply filter_all_true.
Qed.

Lemma filteredTodos_other_filter_witness :
  let a := setTodos [{| id := 1; text := str "buy milk"; completed := true |};
                     {| id := 2; text := str "walk dog"; completed := false |}]
                    (init None) in
  str "done" <> str "pending" /\ str "done" <> str "completed" /\
  visibleTasks (str "done") a = todos a.
Proof.
  intros a.
  assert (H1 : str "done" <> str "pending") by discriminate.
  assert (H2 : str "done" <> str "completed") by discriminate.
  split; [exact H1|]. split; [exact H2|].
  exact (proj1 (filteredTodos_other_filter a (str "done") H1 H2)).
Defined.

(** * Further properties of the component *)

(** ** Storage and reload *)

(** The storage holds the text of the current list, which is also the
    last value written. *)
Lemma save_effect_synced (a : App) :
  localStorage (save_effect a) = Some (stringify (todos (save_effect a))) /\
  exists log, setItem_log (save_effect a) = log ++ [stringify (todos (save_effect a))].
Proof. split; [reflexivity|]. now exists (setItem_log a). Qed.

Lemma mount_synced (stored : option jsstring) (a : App) :
  mount stored = Returns a ->
  localStorage a = Some (stringify (todos a)) /\
  exists log, setItem_log a = log ++ [stringify (todos a)].
Proof.
  unfold mount. destruct (load_effect _) as [[v|]| |]; try discriminate.
  - destruct (as_todos v) as [l|]; [|discriminate].
    intros E. injection E as <-. apply save_effect_synced.
  - intros E. injection E as <-. apply save_effect_synced.
Qed.

Lemma handle_synced (a : App) (e : event) :
  (localStorage a = Some (stringify (todos a)) /\
   exists log, setItem_log a = log ++ [stringify (todos a)]) ->
  localStorage (handle a e) = Some (stringify (todos (handle a e))) /\
  exists log, setItem_log (handle a e) = log ++ [stringify (todos (handle a e))].
Proof.
  intros H. destruct e as [s|now|i|i| | |f]; cbn [handle];
    try exact H; try apply save_effect_synced.
  unfold addTodo. destruct (String_eqb (trim (input a)) []); [exact H|].
  split; [reflexivity|]. now exists (setItem_log a).
Qed.

Lemma run_synced (es : list event) (a : App) :
  (localStorage a = Some (stringify (todos a)) /\
   exists log, setItem_log a = log ++ [stringify (todos a)]) ->
  localStorage (run a es) = Some (stringify (todos (run a es))) /\
  exists log, setItem_log (run a es) = log ++ [stringify (todos (run a es))].
Proof.
  revert a. induction es as [|e es IH]; intros a H; [exact H|].
  cbn [run fold_left]. apply IH. now apply handle_synced.
Qed.

(** X1. In every state the page can reach, the item stored under
    ['todos'] is the JSON text of the current list, and that text is the
    last value [setItem] wrote. *)
Theorem storage_in_sync (a : App) (Hreach : reachable a) :
  localStorage a = Some (stringify (todos a)) /\
  exists log, setItem_log a = log ++ [stringify (todos a)].
Proof.
  destruct Hreach as (stored & a0 & es & Hm & ->).
  apply run_synced. now apply (mount_synced stored).
Qed.

Lemma storage_in_sync_witness :
  let a := run (save_effect (init None))
               [Change (str "buy milk"); Submit 1700000000000;
                ClickComplete 1700000000000; ClickFilter (str "pending")] in
  reachable a /\ localStorage a = Some (stringify (todos a)).
Proof.
  intros a.
  assert (H : reachable a).
  { exists None, (save_effect (init None)),
      [Change (str "buy milk"); Submit 1700000000000;
       ClickComplete 1700000000000; ClickFilter (str "pending")].
    split; reflexivity. }
  split; [exact H|]. exact (proj1 (storage_in_sync a H)).
Defined.









(** X3. Whatever the texts of the todos contain (quotes, backslashes,
    control characters, lone surrogates), what the second effect stores
    is a JSON text: [JSON.parse] returns the value of the list on it,
    and the first effect over it never throws. *)
Theorem saved_text_always_parses (a : App) :
  JSON.parse (stringify (todos a)) = Some (value_of_todos (todos a)) /\
  load_effect (localStorage (save_effect a)) =
    Returns (Some (value_of_todos (todos a))) /\
  load_effect (localStorage (save_effect a)) <> Throws.
Proof.
  split; [apply parse_stringify|].
  cbn [save_effect localStorage]. rewrite load_effect_stringify.
  split; [reflexivity|discriminate].
Qed.



(** ** Blank input *)

Lemma trimStart_nil (s : jsstring) :
  trimStart s = [] <-> forallb isStrWhiteSpaceChar s = true.
Proof.
  induction s as [|c r IH]; simpl; [tauto|].
  destruct (isStrWhiteSpaceChar c); simpl; [exact IH|]. split; discriminate.
Qed.

Lemma trimStart_head (s r : jsstring) (c : code_unit) :
  trimStart s = c :: r -> isStrWhiteSpaceChar c = false.
Proof.
  induction s as [|d s IH]; simpl; [discriminate|].
  destruct (isStrWhiteSpaceChar d) eqn:E; [exact IH|].
  intros H. injection H as <- _. exact E.
Qed.

Lemma forallb_rev {A : Type} (f : A -> bool) (l : list A) :
  forallb f (rev l) = true -> forallb f l = true.
Proof.
  rewrite !forallb_forall. intros H x Hx. apply H. now apply in_rev in Hx.
Qed.

(** [s.trim() === ''] exactly when [s] is made of white space and line
    terminators only. *)
Lemma trim_nil (s : jsstring) :
  trim s = [] <-> forallb isStrWhiteSpaceChar s = true.
Proof.
  unfold trim, trimEnd. split.
  - intros H.
    assert (H1 : trimStart (rev (trimStart s)) = []).
    { destruct (trimStart (rev (trimStart s))) as [|c r] eqn:E; [reflexivity|].
      simpl in H. now destruct (rev r). }
    apply trimStart_nil, forallb_rev in H1.
    destruct (trimStart s) as [|c r] eqn:E; [now apply trimStart_nil|].
    apply trimStart_head in E. simpl in H1. now rewrite E in H1.
  - intros H. apply trimStart_nil in H. now rewrite H.
Qed.

(** X5. [addTodo] does nothing at all when every character of the
    input is white space or a line terminator (the empty input
    included); otherwise it appends a todo with the input as typed,
    untrimmed, empties the input and keeps the filter. *)
Theorem addTodo_appends_iff_not_blank (a : App) (now : Z) :
  (forallb isStrWhiteSpaceChar (input a) = true -> addTodo now a = a) /\
  (forallb isStrWhiteSpaceChar (input a) = false ->
     todos (addTodo now a) =
       todos a ++ [{| id := now; text := input a; completed := false |}] /\
     input (addTodo now a) = [] /\
     filter (addTodo now a) = filter a).
Proof.
  unfold addTodo. split; intros H.
  - apply trim_nil, String_eqb_eq in H. now rewrite H.
  - assert (E : String_eqb (trim (input a)) [] = false).
    { apply String_eqb_neq. intros Ht. apply trim_nil in Ht. congruence. }
    rewrite E. repeat split.
Qed.

(** X6. Submitting twice in a row, with no typing in between, is the
    same as submitting once: the second submit finds the input blank. *)
Theorem addTodo_twice (a : App) (now now' : Z) :
  addTodo now' (addTodo now a) = addTodo now a.
Proof.
  destruct (String_eqb (trim (input a)) []) eqn:E.
  - unfold addTodo. now rewrite !E.
  - assert (H : addTodo now a =
                setInput []
                  (setTodos (todos a ++
                     [{| id := now; text := input a; completed := false |}]) a)).
    { unfold addTodo. now rewrite E. }
    rewrite H. reflexivity.
Qed.

(** X7. [toggleComplete] and [deleteTodo] with an id that no todo has
    leave the list as it is and still write it to the storage once
    more. *)
Theorem absent_id_still_writes (a : App) (i : Z)
    (Habsent : ~ In i (ids (todos a))) :
  todos (toggleComplete i a) = todos a /\
  setItem_log (toggleComplete i a) = setItem_log a ++ [stringify (todos a)] /\
  todos (deleteTodo i a) = todos a /\
  setItem_log (deleteTodo i a) = setItem_log a ++ [stringify (todos a)].
Proof.
  unfold toggleComplete, deleteTodo. cbn [setTodos save_effect todos setItem_log].
  fold (toggled i).
  change (fun todo : Todo =>
            if (id todo =? i)%Z
            then {| id := id todo; text := text todo;
                    completed := negb (completed todo) |}
            else todo) with (toggled i).
  rewrite map_toggled_absent, filter_id_absent by exact Habsent.
  repeat split.
Qed.

Lemma absent_id_still_writes_witness :
  let a := setTodos [{| id := 1; text := str "buy milk"; completed := false |}]
                    (init None) in
  ~ In 7%Z (ids (todos a)) /\
  todos (toggleComplete 7 a) = todos a /\
  setItem_log (toggleComplete 7 a) = setItem_log a ++ [stringify (todos a)].
Proof.
  intros a.
  assert (H : ~ In 7%Z (ids (todos a))) by (simpl; intuition discriminate).
  split; [exact H|].
  destruct (absent_id_still_writes a 7 H) as (H1 & H2 & _).
  exact (conj H1 H2).
Defined.

(** ** Repeated ids *)

(** X8. Without any assumption on the ids: after [deleteTodo(id)] no
    todo has that id, however many had it; the todos left are those with
    another id, in their order. *)
Theorem deleteTodo_leaves_no_match (a : App) (i : Z) :
  ~ In i (ids (todos (deleteTodo i a))) /\
  (forall t, In t (todos (deleteTodo i a)) <-> In t (todos a) /\ id t <> i) /\
  Subsequence (todos (deleteTodo i a)) (todos a).
Proof.
  rewrite todos_deleteTodo.
  assert (H : forall t, In t (List.filter (fun todo => negb (id todo =? i)%Z) (todos a))
                        <-> In t (todos a) /\ id t <> i).
  { intros t. rewrite filter_In, negb_true_iff, Z.eqb_neq. tauto. }
  split; [|split; [exact H|apply filter_Subsequence]].
  unfold ids. intros Hin. apply in_map_iff in Hin as (t & Ht & Hin).
  apply H in Hin. tauto.
Qed.

(** X9. Without any assumption on the ids: [toggleComplete(id)]
    negates [completed] at every position whose todo has that id, and
    leaves the todo at every other position as it is. *)
Theorem toggleComplete_every_match (a : App) (i : Z) (n : nat) (t : Todo)
    (Hn : nth_error (todos a) n = Some t) :
  (id t = i ->
     nth_error (todos (toggleComplete i a)) n =
       Some {| id := id t; text := text t; completed := negb (completed t) |}) /\
  (id t <> i -> nth_error (todos (toggleComplete i a)) n = Some t).
Proof.
  rewrite todos_toggleComplete, nth_error_map, Hn. cbn [option_map].
  split; intros H.
  - now rewrite toggled_same.
  - now rewrite toggled_other.
Qed.

Lemma toggleComplete_every_match_witness :
  let a := setTodos [{| id := 5; text := str "buy milk"; completed := false |};
                     {| id := 5; text := str "walk dog"; completed := true |}]
                    (init None) in
  nth_error (todos a) 1 = Some {| id := 5; text := str "walk dog"; completed := true |} /\
  todos (toggleComplete 5 a) =
    [{| id := 5; text := str "buy milk"; completed := true |};
     {| id := 5; text := str "walk dog"; completed := false |}] /\
  nth_error (todos (toggleComplete 5 a)) 1 =
    Some {| id := 5; text := str "walk dog"; completed := false |}.
Proof.
  intros a.
  assert (H : nth_error (todos a) 1 =
              Some {| id := 5; text := str "walk dog"; completed := true |})
    by reflexivity.
  split; [exact H|]. split; [reflexivity|].
  exact (proj1 (toggleComplete_every_match a 5 1 _ H) eq_refl).
Defined.

(** ** Composition *)

Lemma filter_filter_comm {A : Type} (f g : A -> bool) (l : list A) :
  List.filter f (List.filter g l) = List.filter g (List.filter f l).
Proof.
  induction l as [|x l IH]; [reflexivity|]. simpl.
  destruct (f x) eqn:Ef, (g x) eqn:Eg; simpl; rewrite ?Ef, ?Eg, IH; reflexivity.
Qed.

Lemma filter_idempotent {A : Type} (f : A -> bool) (l : list A) :
  List.filter f (List.filter f l) = List.filter f l.
Proof.
  induction l as [|x l IH]; [reflexivity|]. simpl.
  destruct (f x) eqn:Ef; simpl; rewrite ?Ef, IH; reflexivity.
Qed.

Lemma filter_map_toggled (f : Todo -> bool) (j : Z) (l : list Todo) :
  (forall t, f (toggled j t) = f t) ->
  List.filter f (map (toggled j) l) = map (toggled j) (List.filter f l).
Proof.
  intros H. induction l as [|x l IH]; [reflexivity|]. simpl.
  rewrite H. destruct (f x); simpl; now rewrite IH.
Qed.

(** X10. On the list, [deleteTodo] and [clearCompleted] are idempotent,
    two deletions commute, and a deletion commutes with
    [clearCompleted]. *)
Theorem removals_compose (a : App) (i j : Z) :
  todos (deleteTodo i (deleteTodo i a)) = todos (deleteTodo i a) /\
  todos (clearCompleted (clearCompleted a)) = todos (clearCompleted a) /\
  todos (deleteTodo i (deleteTodo j a)) = todos (deleteTodo j (deleteTodo i a)) /\
  todos (deleteTodo i (clearCompleted a)) = todos (clearCompleted (deleteTodo i a)).
Proof.
  repeat first [rewrite todos_deleteTodo | rewrite todos_clearCompleted].
  repeat split.
  - apply filter_idempotent.
  - apply filter_idempotent.
  - apply filter_filter_comm.
  - apply filter_filter_comm.
Qed.

(** X11. On the list, two toggles commute, a toggle commutes with a
    deletion, and toggling an id before deleting it changes nothing of
    the result. *)
Theorem toggleComplete_composes (a : App) (i j : Z) :
  todos (toggleComplete i (toggleComplete j a)) =
    todos (toggleComplete j (toggleComplete i a)) /\
  todos (deleteTodo i (toggleComplete j a)) =
    todos (toggleComplete j (deleteTodo i a)) /\
  todos (deleteTodo i (toggleComplete i a)) = todos (deleteTodo i a).
Proof.
  repeat first [rewrite todos_deleteTodo | rewrite todos_toggleComplete].
  assert (Hf : forall k l, List.filter (fun todo => negb (id todo =? i)%Z)
                                       (map (toggled k) l) =
                           map (toggled k)
                               (List.filter (fun todo => negb (id todo =? i)%Z) l)).
  { intros k l. apply filter_map_toggled. intros t. now rewrite id_toggled. }
  repeat split.
  - rewrite !map_map. apply map_ext. intros t. unfold toggled.
    destruct (id t =? i)%Z eqn:Ei, (id t =? j)%Z eqn:Ej; cbn [id];
      rewrite ?Ei, ?Ej; reflexivity.
  - apply Hf.
  - rewrite Hf. apply map_toggled_absent.
    unfold ids. intros Hin. apply in_map_iff in Hin as (t & Ht & Hin).
    apply filter_In in Hin as [_ Hin].
    apply negb_true_iff, Z.eqb_neq in Hin. contradiction.
Qed.

(** ** Views *)

Lemma filter_partition_length {A : Type} (f : A -> bool) (l : list A) :
  (List.length (List.filter (fun x => negb (f x)) l) +
   List.length (List.filter f l) = List.length l)%nat.
Proof.
  induction l as [|x l IH]; [reflexivity|]. simpl.
  destruct (f x); simpl; lia.
Qed.

(** X12. The pending view and the completed view split the list: their
    lengths add up to the length of the whole view, and no todo is in
    both. *)
Theorem views_partition (a : App) :
  (List.length (visibleTasks (str "pending") a) +
   List.length (visibleTasks (str "completed") a) =
   List.length (visibleTasks (str "all") a))%nat /\
  (forall t, In t (visibleTasks (str "pending") a) ->
             ~ In t (visibleTasks (str "completed") a)).
Proof.
  rewrite visibleTasks_all, visibleTasks_pending, visibleTasks_completed.
  split; [apply (filter_partition_length completed)|].
  intros t Hp Hc. apply filter_In in Hp as [_ Hp], Hc as [_ Hc].
  rewrite Hc in Hp. discriminate.
Qed.

(** X13. After [clearCompleted] the completed view is empty, and the
    pending view and the whole view are both the pending view from
    before. *)
Theorem clearCompleted_views (a : App) :
  visibleTasks (str "completed") (clearCompleted a) = [] /\
  visibleTasks (str "pending") (clearCompleted a) = visibleTasks (str "pending") a /\
  visibleTasks (str "all") (clearCompleted a) = visibleTasks (str "pending") a.
Proof.
  rewrite visibleTasks_all, !visibleTasks_pending, visibleTasks_completed,
    todos_clearCompleted.
  repeat split.
  - induction (todos a) as [|t l IH]; [reflexivity|]. simpl.
    destruct (completed t) eqn:E; simpl; rewrite ?E; exact IH.
  - apply filter_idempotent.
Qed.

(** X14. With distinct ids, toggling a todo of the pending view puts
    it, completed, in the completed view, and its id is no longer in the
    pending view. *)
Theorem toggleComplete_moves_view (a : App) (t : Todo)
    (Hdistinct : NoDup (ids (todos a)))
    (Hin : In t (visibleTasks (str "pending") a)) :
  In {| id := id t; text := text t; completed := true |}
     (visibleTasks (str "completed") (toggleComplete (id t) a)) /\
  ~ In (id t) (ids (visibleTasks (str "pending") (toggleComplete (id t) a))).
Proof.
  rewrite visibleTasks_pending in *. rewrite visibleTasks_completed.
  rewrite todos_toggleComplete.
  apply filter_In in Hin as [Hin Hp]. apply negb_true_iff in Hp.
  split.
  - apply filter_In. split; [|reflexivity].
    apply in_map_iff. exists t. split; [|exact Hin].
    rewrite toggled_same by reflexivity. now rewrite Hp.
  - unfold ids. intros H. apply in_map_iff in H as (u' & Hid & Hu').
    apply filter_In in Hu' as [Hu' Hc]. apply negb_true_iff in Hc.
    apply in_map_iff in Hu' as (u & <- & Hu).
    rewrite id_toggled in Hid.
    apply In_nth_error in Hin as [n Hn]. apply In_nth_error in Hu as [m Hm].
    pose proof (NoDup_ids_position (todos a) m n u t Hdistinct Hm Hn Hid) as ->.
    rewrite Hn in Hm. injection Hm as <-.
    rewrite toggled_same in Hc by reflexivity. cbn [completed] in Hc.
    rewrite Hp in Hc. discriminate.
Qed.

Lemma toggleComplete_moves_view_witness :
  let t := {| id := 1; text := str "buy milk"; completed := false |} in
  let a := setTodos [t; {| id := 2; text := str "walk dog"; completed := false |}]
                    (init None) in
  NoDup (ids (todos a)) /\ In t (visibleTasks (str "pending") a) /\
  ~ In 1%Z (ids (visibleTasks (str "pending") (toggleComplete 1 a))).
Proof.
  intros t a.
  assert (Hd : NoDup (ids (todos a))).
  { simpl. repeat constructor; simpl; intuition discriminate. }
  assert (Hin : In t (visibleTasks (str "pending") a)) by (simpl; auto).
  split; [exact Hd|]. split; [exact Hin|].
  exact (proj2 (toggleComplete_moves_view a t Hd Hin)).
Defined.

(** ** What no handler changes *)

Lemma Subsequence_map {A B : Type} (f : A -> B) (l1 l2 : list A) :
  Subsequence l1 l2 -> Subsequence (map f l1) (map f l2).
Proof. induction 1; simpl; now constructor. Qed.

(** X15. No handler edits an id or a text or reorders the list: after
    any event the ids with their texts are a subsequence of those
    before, or, for a submit, those before followed by the clock reading
    with the input. *)
Theorem handlers_keep_id_text_order (a : App) (e : event) :
  Subsequence (map id_text (todos (handle a e))) (map id_text (todos a)) \/
  exists now, e = Submit now /\
    map id_text (todos (handle a e)) = map id_text (todos a) ++ [(now, input a)].
Proof.
  destruct e as [s|now|i|i| | |f]; cbn [handle].
  - left. apply Subsequence_refl.
  - unfold addTodo. destruct (String_eqb (trim (input a)) []).
    + left. apply Subsequence_refl.
    + right. exists now. split; [reflexivity|].
      cbn [setInput setTodos save_effect todos]. now rewrite map_app.
  - left. rewrite todos_toggleComplete, map_map.
    replace (map (fun x => id_text (toggled i x)) (todos a))
      with (map id_text (todos a)); [apply Subsequence_refl|].
    apply map_ext. intros t. unfold id_text. now rewrite id_toggled, text_toggled.
  - left. rewrite todos_deleteTodo. apply Subsequence_map, filter_Subsequence.
  - left. rewrite todos_clearCompleted. apply Subsequence_map, filter_Subsequence.
  - left. cbn [clearAll setTodos save_effect todos map].
    induction (map id_text (todos a)); now constructor.
  - left. apply Subsequence_refl.
Qed.

(** ** The rendered page *)




(** X16. When the ids of the list are distinct, the keys of the
    rendered items are distinct, under every filter. *)
Theorem todo_list_keys_distinct (a : App) (Hdistinct : NoDup (ids (todos a))) :
  NoDup (map key (todo_list a)).
Proof.
  unfold todo_list. rewrite map_map. cbn [render_li key].
  change (map (fun x => id x) (filteredTodos a)) with (ids (filteredTodos a)).
  unfold filteredTodos. now apply NoDup_ids_filter.
Qed.

Lemma todo_list_keys_distinct_witness :
  let a := setFilter (str "pending")
             (setTodos [{| id := 1; text := str "buy milk"; completed := false |};
                        {| id := 2; text := str "walk dog"; completed := true |};
                        {| id := 3; text := str "call mum"; completed := false |}]
                       (init None)) in
  NoDup (ids (todos a)) /\ NoDup (map key (todo_list a)) /\
  map key (todo_list a) = [1; 3]%Z.
Proof.
  intros a.
  assert (Hd : NoDup (ids (todos a))).
  { simpl. repeat constructor; simpl; intuition discriminate. }
  split; [exact Hd|]. split; [exact (todo_list_keys_distinct a Hd)|reflexivity].
Defined.







Lemma mount_filter (stored : option jsstring) (a : App) :
  mount stored = Returns a -> filter a = str "all".
Proof.
  unfold mount. destruct (load_effect _) as [[v|]| |]; try discriminate.
  - destruct (as_todos v); [|discriminate]. intros E. now injection E as <-.
  - intros E. now injection E as <-.
Qed.

Lemma handle_known_filter (a : App) (e : event) :
  known_filter (filter a) -> offers a e -> known_filter (filter (handle a e)).
Proof.
  intros H Ho. destruct e as [s|now|i|i| | |f]; cbn [handle]; try exact H.
  - unfold addTodo. now destruct (String_eqb (trim (input a)) []).
  - destruct Ho as (b & Hb & E). cbn [setFilter filter].
    unfold filters in Hb. cbn [In] in Hb.
    destruct Hb as [<-|[<-|[<-|[]]]]; cbn [render_filter_button onClick] in E;
      injection E as <-; unfold known_filter; cbn [In]; auto.
Qed.

Lemma known_filter_one_active (a : App) :
  known_filter (filter a) -> List.length (active_filters a) = 1%nat.
Proof.
  unfold known_filter, active_filters, filters, render_filter_button. cbn [In].
  intros [E|[E|[E|[]]]]; rewrite <- E; reflexivity.
Qed.

(** X20. After mounting and any events the page offers, the filter is
    one of ['all'], ['pending'], ['completed'] and exactly one filter
    button has the class [active]. *)
Theorem one_filter_button_active
    (stored : option jsstring) (a0 : App) (es : list event)
    (Hmount : mount stored = Returns a0) (Hoffered : offered_run a0 es) :
  In (filter (run a0 es)) [str "all"; str "pending"; str "completed"] /\
  List.length (active_filters (run a0 es)) = 1%nat.
Proof.
  assert (H : known_filter (filter (run a0 es))).
  { assert (H0 : known_filter (filter a0)).
    { rewrite (mount_filter stored a0 Hmount). now left. }
    clear Hmount. revert a0 H0 Hoffered.
    induction es as [|e es IH]; intros a0 H0 Ho; [exact H0|].
    destruct Ho as [He Hes]. cbn [run fold_left].
    apply IH; [|exact Hes]. now apply handle_known_filter. }
  split; [exact H|]. now apply known_filter_one_active.
Qed.

Lemma one_filter_button_active_witness :
  let a0 := save_effect (init None) in
  mount None = Returns a0 /\
  List.length (active_filters (run a0 [Change (str "buy milk"); Submit 1700000000000;
                                       ClickFilter (str "pending")])) = 1%nat.
Proof.
  intros a0.
  assert (Hm : mount None = Returns a0) by reflexivity.
  assert (Ho : offered_run a0 [Change (str "buy milk"); Submit 1700000000000;
                               ClickFilter (str "pending")]).
  { simpl. repeat split.
    exists (render_filter_button
              (addTodo 1700000000000 (setInput (str "buy milk") a0))
              (str "Pending") (str "pending")).
    split; [simpl; auto|reflexivity]. }
  split; [exact Hm|].
  exact (proj2 (one_filter_button_active None a0 _ Hm Ho)).
Defined.
